(** * Status-indexed store of attester slashings (slasher/db/attester_slashings.go)

    A shallow embedding of the attester-slashing store of the slasher
    database.  The store keeps serialized slashing proofs in one bolt bucket
    whose keys are [status byte; type byte; 32-byte hash tree root].  The
    functions of [attester_slashings.go] are transcribed one by one on top
    of a small model of the bucket (a byte-sorted list of key/value pairs),
    its cursor and its transactions. *)

From Stdlib Require Import String.
From Stdlib Require Import List Bool Arith Lia NArith.
From Stdlib Require Import Sorting.Sorted.
From Stdlib Require Strings.Byte.
Import ListNotations.

Abbreviation byte := Init.Byte.byte.

(* ================================================================== *)
(** ** Byte slices *)

Module Bytes.

(** [bytes.Equal]. *)
Fixpoint Equal (a b : list byte) : bool :=
  match a, b with
  | [], [] => true
  | x :: a', y :: b' => Byte.eqb x y && Equal a' b'
  | _, _ => false
  end.

(** [bytes.Compare]: lexicographic order on the unsigned byte values, the
    order in which bolt keeps the keys of a bucket. *)
Fixpoint Compare (a b : list byte) : comparison :=
  match a, b with
  | [], [] => Eq
  | [], _ :: _ => Lt
  | _ :: _, [] => Gt
  | x :: a', y :: b' =>
      match N.compare (Byte.to_N x) (Byte.to_N y) with
      | Eq => Compare a' b'
      | c => c
      end
  end.

Definition ltb (a b : list byte) : bool :=
  match Compare a b with Lt => true | _ => false end.

(** [bytes.HasPrefix(s, prefix)]:
    [len(s) >= len(prefix) && Equal(s[0:len(prefix)], prefix)]. *)
Definition HasPrefix (s prefix : list byte) : bool :=
  (length prefix <=? length s) && Equal (firstn (length prefix) s) prefix.

(** [bytes.HasSuffix(s, suffix)]:
    [len(s) >= len(suffix) && Equal(s[len(s)-len(suffix):], suffix)]. *)
Definition HasSuffix (s suffix : list byte) : bool :=
  (length suffix <=? length s) &&
  Equal (skipn (length s - length suffix) s) suffix.

End Bytes.

(* ================================================================== *)
(** ** Errors and results *)

(** A Go [error] value: either produced by a collaborator, or obtained from
    another error by [errors.Wrap(cause, msg)].  The nil error is [None] of
    [option error]. *)
Inductive error : Type :=
| ErrExternal (msg : string)
| ErrWrap (cause : error) (msg : string).

(** The [(value, error)] pair of a Go function that returns a nil value
    exactly when the error is non-nil. *)
Inductive result (A : Type) : Type :=
| Ok (a : A)
| Fail (e : error).

Arguments Ok {A} a.
Arguments Fail {A} e.

(* ================================================================== *)
(** ** Keys, roots and the collaborators *)

Definition key := list byte.
Definition value := list byte.

(** [SlashingStatus] and [SlashingType] are single bytes. *)
Definition SlashingStatus := byte.
Definition SlashingType := byte.

(** A hash tree root, the [[32]byte] array returned by [ssz.HashTreeRoot]. *)
Record Root : Type := mkRoot {
  root_bytes : list byte;
  root_len : length root_bytes = 32
}.

(** What the store takes from outside this file: the slashing message type
    with its hashing and protobuf coding, the [Attestation] constant of
    [SlashingType], and the two ways in which the engine may refuse a write
    inside a read-write transaction (the error [Bucket.Delete] gives for a
    stored key, and the error [Bucket.Put] gives for a key and value). *)
Class Collaborators : Type := {
  AttesterSlashing : Type;
  HashTreeRoot : AttesterSlashing -> result Root;
  Marshal : AttesterSlashing -> result (list byte);
  Unmarshal : list byte -> result AttesterSlashing;
  Attestation : SlashingType;
  delete_fault : key -> option error;
  put_fault : key -> value -> option error
}.

(** Modelled from the spec: [encodeStatusType] is not in this file; section
    4.1 of the specification gives it as the concatenation of the two
    single-byte fields. *)
Definition encodeStatusType (status : SlashingStatus) (ty : SlashingType) : key :=
  [status; ty].

(** Modelled from the spec: [encodeStatusTypeRoot] is not in this file;
    section 4.1 of the specification gives it as the concatenation of the
    status, the type and the 32-byte digest. *)
Definition encodeStatusTypeRoot (status : SlashingStatus) (ty : SlashingType)
    (root : Root) : key :=
  status :: ty :: root_bytes root.

(* ================================================================== *)
(** ** The bucket, its cursor and the transactions *)

(** The slashing bucket: its key/value pairs in the order of a forward
    cursor scan.  The engine keeps the keys strictly increasing for
    [Bytes.Compare]; that is the predicate [bucket_ok] below. *)
Definition Bucket := list (key * value).

Definition key_lt (e1 e2 : key * value) : Prop :=
  Bytes.Compare (fst e1) (fst e2) = Lt.

Definition bucket_ok (b : Bucket) : Prop := StronglySorted key_lt b.

(** Removal of the pair stored under [k], if any. *)
Definition bucket_remove (k : key) (b : Bucket) : Bucket :=
  filter (fun e => negb (Bytes.Equal (fst e) k)) b.

(** Insertion of [(k, v)] at its place in key order, replacing the pair
    stored under [k]. *)
Fixpoint bucket_insert (k : key) (v : value) (b : Bucket) : Bucket :=
  match b with
  | [] => [(k, v)]
  | (k', v') :: b' =>
      match Bytes.Compare k k' with
      | Lt => (k, v) :: b
      | Eq => (k, v) :: b'
      | Gt => (k', v') :: bucket_insert k v b'
      end
  end.

Definition bucket_mem (k : key) (b : Bucket) : bool :=
  existsb (fun e => Bytes.Equal (fst e) k) b.

Section Engine.
Context {C : Collaborators}.

(** Modelled from the spec: [Bucket.Delete] belongs to the engine.  Deleting
    an absent key succeeds and changes nothing; deleting a stored key either
    removes it or fails with the engine's error and changes nothing. *)
Definition Bucket_Delete (k : key) (b : Bucket) : Bucket * option error :=
  if bucket_mem k b then
    match delete_fault k with
    | Some e => (b, Some e)
    | None => (bucket_remove k b, None)
    end
  else (b, None).

(** Modelled from the spec: [Bucket.Put] belongs to the engine.  It either
    stores the pair or fails with the engine's error and changes nothing. *)
Definition Bucket_Put (k : key) (v : value) (b : Bucket) : Bucket * option error :=
  match put_fault k v with
  | Some e => (b, Some e)
  | None => (bucket_insert k v b, None)
  end.

End Engine.

(** A cursor is the list of pairs from its position on; the empty list is
    the cursor past the last key, where [First], [Seek] and [Next] return a
    nil key.  [Next] moves to the tail: the loops of the store are written
    by recursion on the cursor. *)
Definition Cursor := list (key * value).

Definition Cursor_First (b : Bucket) : Cursor := b.

(** [Cursor.Seek(seek)]: the first key not below [seek]. *)
Fixpoint Cursor_Seek (seek : key) (b : Bucket) : Cursor :=
  match b with
  | [] => []
  | (k, v) :: b' => if Bytes.ltb k seek then Cursor_Seek seek b' else b
  end.

(** Modelled from the spec: [Store.view] is not in this file; section 6 of
    the specification: runs [fn] inside a read-only transaction and returns
    what it returns.  [A] carries the variables the closure assigns. *)
Definition view {A : Type} (fn : Bucket -> A * option error) (b : Bucket)
    : A * option error :=
  fn b.

(** Modelled from the spec: [Store.update] is not in this file; section 6 of
    the specification: runs [fn] inside a read-write transaction; when [fn]
    returns an error all its writes are rolled back, otherwise they are
    committed. *)
Definition update (fn : Bucket -> Bucket * option error) (b : Bucket)
    : Bucket * option error :=
  match fn b with
  | (b', None) => (b', None)
  | (_, Some e) => (b, Some e)
  end.

(* ================================================================== *)
(** ** The store: attester_slashings.go *)

Section Store.
Context {C : Collaborators}.

Local Open Scope string_scope.

(** [createAttesterSlashing]. *)
Definition createAttesterSlashing (enc : list byte) : result AttesterSlashing :=
  match Unmarshal enc with
  | Fail err => Fail (ErrWrap err "failed to unmarshal encoding")
  | Ok protoSlashing => Ok protoSlashing
  end.

(** The cursor loop of [AttesterSlashings]:
    [for k, v := c.Seek(prefix); k != nil && bytes.HasPrefix(k, prefix);
     k, v = c.Next() { encoded = append(encoded, v) }]. *)
Fixpoint scanEncoded (prefix : key) (c : Cursor) (encoded : list value)
    : list value :=
  match c with
  | [] => encoded
  | (k, v) :: rest =>
      if Bytes.HasPrefix k prefix
      then scanEncoded prefix rest (encoded ++ [v])
      else encoded
  end.

(** The decoding loop of [AttesterSlashings]; [err] is the error of the
    transaction, returned with the slashings when every value decodes. *)
Fixpoint decodeEncoded (encoded : list value)
    (attesterSlashings : list AttesterSlashing) (err : option error)
    : list AttesterSlashing * option error :=
  match encoded with
  | [] => (attesterSlashings, err)
  | enc :: rest =>
      match createAttesterSlashing enc with
      | Fail err' => ([], Some err')
      | Ok ps => decodeEncoded rest (attesterSlashings ++ [ps]) err
      end
  end.

(** [AttesterSlashings]: all slashings with the given status. *)
Definition AttesterSlashings (status : SlashingStatus) (b : Bucket)
    : list AttesterSlashing * option error :=
  let '(encoded, err) :=
    view (fun b =>
            let prefix := encodeStatusType status Attestation in
            (scanEncoded prefix (Cursor_Seek prefix b) [], None)) b in
  decodeEncoded encoded [] err.

(** The cursor loop of [AttestingSlashingsByStatus], which decodes inside
    the transaction and leaves it with the error of the first value that
    does not decode. *)
Fixpoint scanDecode (prefix : key) (c : Cursor)
    (attesterSlashings : list AttesterSlashing)
    : list AttesterSlashing * option error :=
  match c with
  | [] => (attesterSlashings, None)
  | (k, v) :: rest =>
      if Bytes.HasPrefix k prefix then
        match createAttesterSlashing v with
        | Fail err => (attesterSlashings, Some err)
        | Ok ps => scanDecode prefix rest (attesterSlashings ++ [ps])
        end
      else (attesterSlashings, None)
  end.

(** [AttestingSlashingsByStatus]. *)
Definition AttestingSlashingsByStatus (status : SlashingStatus) (b : Bucket)
    : list AttesterSlashing * option error :=
  view (fun b =>
          let prefix := encodeStatusType status Attestation in
          scanDecode prefix (Cursor_Seek prefix b) []) b.

(** The cursor loop of [HasAttesterSlashing]: the first key that ends with
    the root gives [found = true] and its first byte as the status.  A key
    that ends with a 32-byte root is not empty, so [k[0]] is in range and
    the default of [hd] is never returned. *)
Fixpoint scanHas (root : list byte) (c : Cursor) : bool * SlashingStatus :=
  match c with
  | [] => (false, Byte.x00)
  | (k, _) :: rest =>
      if Bytes.HasSuffix k root then (true, hd Byte.x00 k)
      else scanHas root rest
  end.

(** [HasAttesterSlashing]: [(found, status, err)]. *)
Definition HasAttesterSlashing (slashing : AttesterSlashing) (b : Bucket)
    : bool * SlashingStatus * option error :=
  match HashTreeRoot slashing with
  | Fail err =>
      (false, Byte.x00,
       Some (ErrWrap err "failed to get hash root of attesterSlashing"))
  | Ok root =>
      let '(fs, err) :=
        view (fun b => (scanHas (root_bytes root) (Cursor_First b), None)) b in
      (fst fs, snd fs, err)
  end.

(** The first loop of [updateAttesterSlashingStatus]: the keys that end
    with the root, in cursor order. *)
Fixpoint collectKeys (root : list byte) (c : Cursor) (keysToDelete : list key)
    : list key :=
  match c with
  | [] => keysToDelete
  | (k, _) :: rest =>
      collectKeys root rest
        (if Bytes.HasSuffix k root then keysToDelete ++ [k] else keysToDelete)
  end.

(** Its second loop: [for _, k := range keysToDelete], leaving with the
    first error of [b.Delete]. *)
Fixpoint deleteKeys (keysToDelete : list key) (b : Bucket)
    : Bucket * option error :=
  match keysToDelete with
  | [] => (b, None)
  | k :: rest =>
      match Bucket_Delete k b with
      | (b', None) => deleteKeys rest b'
      | (b', Some err) => (b', Some err)
      end
  end.

(** [updateAttesterSlashingStatus]: deletes every copy of the slashing and
    saves it under the new status, in one read-write transaction. *)
Definition updateAttesterSlashingStatus (slashing : AttesterSlashing)
    (status : SlashingStatus) (b : Bucket) : Bucket * option error :=
  match HashTreeRoot slashing with
  | Fail err =>
      (b, Some (ErrWrap err "failed to get hash root of attesterSlashing"))
  | Ok root =>
      update (fun b =>
        let keysToDelete := collectKeys (root_bytes root) (Cursor_First b) [] in
        match deleteKeys keysToDelete b with
        | (b1, Some err) => (b1, Some err)
        | (b1, None) =>
            match Marshal slashing with
            | Fail err => (b1, Some (ErrWrap err "failed to marshal"))
            | Ok enc =>
                Bucket_Put (encodeStatusTypeRoot status Attestation root) enc b1
            end
        end) b
  end.

(** [SaveAttesterSlashing]. *)
Definition SaveAttesterSlashing (status : SlashingStatus)
    (attesterSlashing : AttesterSlashing) (b : Bucket) : Bucket * option error :=
  let '(found, st, err) := HasAttesterSlashing attesterSlashing b in
  match err with
  | Some err =>
      (b, Some (ErrWrap err
                  "failed to check if attester slashing is already in db"))
  | None =>
      if found && Byte.eqb st status then (b, None)
      else updateAttesterSlashingStatus attesterSlashing status b
  end.

(** [DeleteAttesterSlashingWithStatus].  The test [if err != nil] inside the
    closure reads the error of [HashTreeRoot], which is nil there. *)
Definition DeleteAttesterSlashingWithStatus (status : SlashingStatus)
    (attesterSlashing : AttesterSlashing) (b : Bucket) : Bucket * option error :=
  match HashTreeRoot attesterSlashing with
  | Fail err =>
      (b, Some (ErrWrap err "failed to get hash root of attesterSlashing"))
  | Ok root =>
      update (fun b =>
        let k := encodeStatusTypeRoot status Attestation root in
        match Bucket_Delete k b with
        | (b', Some err) =>
            (b', Some (ErrWrap err
               "failed to delete the slashing proof from slashing bucket"))
        | (b', None) => (b', None)
        end) b
  end.

(** The callback loop of [DeleteAttesterSlashing]:
    [b.ForEach(func(k, v) { if bytes.HasSuffix(k, root[:]) { b.Delete(k) };
     return nil })].  [c] runs over the pairs the bucket held when the loop
    started; the result of [b.Delete] is dropped, and so is the result of
    [b.ForEach]. *)
Fixpoint forEachDelete (root : list byte) (c : Cursor) (b : Bucket) : Bucket :=
  match c with
  | [] => b
  | (k, _) :: rest =>
      forEachDelete root rest
        (if Bytes.HasSuffix k root then fst (Bucket_Delete k b) else b)
  end.

(** [DeleteAttesterSlashing]. *)
Definition DeleteAttesterSlashing (slashing : AttesterSlashing) (b : Bucket)
    : Bucket * option error :=
  match HashTreeRoot slashing with
  | Fail err =>
      (b, Some (ErrWrap err "failed to get hash root of attester slashing"))
  | Ok root =>
      update (fun b =>
        (forEachDelete (root_bytes root) (Cursor_First b) b, None)) b
  end.

(** A sequence of [SaveAttesterSlashing] calls, each on the table the
    previous one left, whatever it returned. *)
Fixpoint saveAll (calls : list (SlashingStatus * AttesterSlashing)) (b : Bucket)
    : Bucket :=
  match calls with
  | [] => b
  | (status, slashing) :: rest =>
      saveAll rest (fst (SaveAttesterSlashing status slashing b))
  end.

End Store.

(** The table without the keys that end with [root]. *)
Definition purge (root : list byte) (b : Bucket) : Bucket :=
  filter (fun e => negb (Bytes.HasSuffix (fst e) root)) b.

(** The pairs of the table whose key ends with [root]. *)
Definition copies (root : list byte) (b : Bucket) : Bucket :=
  filter (fun e => Bytes.HasSuffix (fst e) root) b.

(** The pairs of the table whose key starts with [prefix]. *)
Definition under (prefix : key) (b : Bucket) : Bucket :=
  filter (fun e => Bytes.HasPrefix (fst e) prefix) b.

(** Whether the engine refuses to delete [k]. *)
Definition refused {C : Collaborators} (k : key) : bool :=
  match delete_fault k with Some _ => true | None => false end.

(** The serializer gives back what was serialized (section 6 of the
    specification: values round-trip through encode and decode). *)
Definition codec_roundtrip {C : Collaborators} : Prop :=
  forall slashing enc, Marshal slashing = Ok enc -> Unmarshal enc = Ok slashing.

(** Every pair whose key carries the [Attestation] type byte is the record
    of some slashing: its key ends with the root of the slashing and its
    value is the serialized slashing.  This is what the store writes. *)
Definition store_wf {C : Collaborators} (b : Bucket) : Prop :=
  forall k v, In (k, v) b -> nth_error k 1 = Some Attestation ->
    exists status slashing root,
      HashTreeRoot slashing = Ok root /\
      k = encodeStatusTypeRoot status Attestation root /\
      Marshal slashing = Ok v.

(** [l] holds [x] exactly once. *)
Definition exactly_once {A : Type} (x : A) (l : list A) : Prop :=
  exists l1 l2, l = l1 ++ x :: l2 /\ ~ In x l1 /\ ~ In x l2.

(** The calls of the store that write the table. *)
Inductive call {C : Collaborators} : Type :=
| CallSave (status : SlashingStatus) (slashing : AttesterSlashing)
| CallDeleteWithStatus (status : SlashingStatus) (slashing : AttesterSlashing)
| CallDelete (slashing : AttesterSlashing).

Definition run_call {C : Collaborators} (c : call) (b : Bucket) : Bucket :=
  match c with
  | CallSave status slashing => fst (SaveAttesterSlashing status slashing b)
  | CallDeleteWithStatus status slashing =>
      fst (DeleteAttesterSlashingWithStatus status slashing b)
  | CallDelete slashing => fst (DeleteAttesterSlashing slashing b)
  end.

(** The tables the store reaches from the empty bucket. *)
Inductive reachable {C : Collaborators} : Bucket -> Prop :=
| reachable_empty : reachable []
| reachable_step c b : reachable b -> reachable (run_call c b).

(* ================================================================== *)
(** ** A small instance, for running the store on concrete tables *)

Module Toy.

Local Open Scope string_scope.

(** Slashings are single bytes; the root of [e] is [e] repeated 32 times and
    its encoding is the one-byte slice [[e]]. *)
Definition hash (e : byte) : result Root :=
  Ok (mkRoot (repeat e 32) (repeat_length e 32)).

Definition marshal (e : byte) : result (list byte) := Ok [e].

Definition unmarshal (enc : list byte) : result byte :=
  match enc with
  | [e] => Ok e
  | _ => Fail (ErrExternal "proto: cannot parse")
  end.

(** An engine that never refuses a write. *)
Definition sound : Collaborators := {|
  AttesterSlashing := byte;
  HashTreeRoot := hash;
  Marshal := marshal;
  Unmarshal := unmarshal;
  Attestation := Byte.x01;
  delete_fault := fun _ => None;
  put_fault := fun _ _ => None
|}.

(** An engine whose [Delete] fails on every stored key. *)
Definition failing : Collaborators := {|
  AttesterSlashing := byte;
  HashTreeRoot := hash;
  Marshal := marshal;
  Unmarshal := unmarshal;
  Attestation := Byte.x01;
  delete_fault := fun _ => Some (ErrExternal "delete failed");
  put_fault := fun _ _ => None
|}.

(** Collaborators that reject some slashings: the zero slashing has no root
    and the slashing 255 cannot be serialized. *)
Definition hash_partial (e : byte) : result Root :=
  if Byte.eqb e Byte.x00 then Fail (ErrExternal "ssz: cannot hash") else hash e.

Definition marshal_partial (e : byte) : result (list byte) :=
  if Byte.eqb e Byte.xff then Fail (ErrExternal "proto: cannot marshal")
  else marshal e.

Definition partial : Collaborators := {|
  AttesterSlashing := byte;
  HashTreeRoot := hash_partial;
  Marshal := marshal_partial;
  Unmarshal := unmarshal;
  Attestation := Byte.x01;
  delete_fault := fun _ => None;
  put_fault := fun _ _ => None
|}.

(** The root and the key of slashing [e] under [status]. *)
Definition root_of (e : byte) : Root := mkRoot (repeat e 32) (repeat_length e 32).

Definition key_of (status e : byte) : key := status :: Byte.x01 :: repeat e 32.

(** The table after saving slashing 9 under status 1 and slashing 7 under
    status 3. *)
Definition table0 : Bucket :=
  [(key_of Byte.x01 Byte.x09, [Byte.x09]); (key_of Byte.x03 Byte.x07, [Byte.x07])].

End Toy.

(* ================================================================== *)
(** ** Facts on byte slices *)

Module BytesFacts.
Import Bytes.

Lemma Equal_refl (a : list byte) : Equal a a = true.
Proof.
  induction a as [|x a IH]; simpl; [reflexivity|].
  now rewrite (Byte.byte_dec_lb (eq_refl x)), IH.
Qed.

Lemma Equal_eq (a b : list byte) : Equal a b = true <-> a = b.
Proof.
  split; [|intros ->; apply Equal_refl].
  revert b; induction a as [|x a IH]; intros [|y b]; simpl; try discriminate; auto.
  intros [Hx Hab]%andb_true_iff.
  apply Byte.byte_dec_bl in Hx. apply IH in Hab. now subst.
Qed.

Lemma Equal_neq (a b : list byte) : Equal a b = false <-> a <> b.
Proof.
  split.
  - intros Hf ->. rewrite Equal_refl in Hf. discriminate.
  - intros Hne. destruct (Equal a b) eqn:E; [|reflexivity].
    apply Equal_eq in E. contradiction.
Qed.

Lemma to_N_inj (x y : byte) : Byte.to_N x = Byte.to_N y -> x = y.
Proof.
  intros Hxy. pose proof (Byte.of_to_N x) as Hx.
  rewrite Hxy, Byte.of_to_N in Hx. now inversion Hx.
Qed.

Lemma Compare_refl (a : list byte) : Compare a a = Eq.
Proof.
  induction a as [|x a IH]; simpl; [reflexivity|].
  now rewrite N.compare_refl.
Qed.

Lemma Compare_eq (a b : list byte) : Compare a b = Eq -> a = b.
Proof.
  revert b; induction a as [|x a IH]; intros [|y b]; simpl; try discriminate; auto.
  destruct (N.compare_spec (Byte.to_N x) (Byte.to_N y)) as [Hxy| |];
    try discriminate.
  intros Hab. apply to_N_inj in Hxy. apply IH in Hab. now subst.
Qed.

Lemma Compare_antisym (a b : list byte) : Compare b a = CompOpp (Compare a b).
Proof.
  revert b; induction a as [|x a IH]; intros [|y b]; simpl; auto.
  rewrite (N.compare_antisym (Byte.to_N x) (Byte.to_N y)).
  destruct (Byte.to_N x ?= Byte.to_N y)%N; simpl; auto.
Qed.

Lemma Compare_gt_lt (a b : list byte) : Compare a b = Gt -> Compare b a = Lt.
Proof. intros Hab. now rewrite Compare_antisym, Hab. Qed.

Lemma Compare_lt_irrefl (a : list byte) : Compare a a <> Lt.
Proof. rewrite Compare_refl. discriminate. Qed.

Lemma Compare_lt_trans (a b c : list byte) :
  Compare a b = Lt -> Compare b c = Lt -> Compare a c = Lt.
Proof.
  revert b c; induction a as [|x a IH]; intros [|y b] [|z c]; simpl;
    try discriminate; auto.
  destruct (N.compare_spec (Byte.to_N x) (Byte.to_N y)) as [Hxy|Hxy|Hxy];
    destruct (N.compare_spec (Byte.to_N y) (Byte.to_N z)) as [Hyz|Hyz|Hyz];
    try discriminate; intros H1 H2.
  - rewrite Hxy, Hyz, N.compare_refl. eauto.
  - rewrite Hxy. now apply N.compare_lt_iff in Hyz as ->.
  - rewrite <- Hyz. now apply N.compare_lt_iff in Hxy as ->.
  - assert (Hxz : (Byte.to_N x < Byte.to_N z)%N) by lia.
    now apply N.compare_lt_iff in Hxz as ->.
Qed.

Lemma HasPrefix_spec (s p : list byte) :
  HasPrefix s p = true <-> exists t, s = p ++ t.
Proof.
  unfold HasPrefix. split.
  - intros [Hlen Heq]%andb_true_iff. apply Equal_eq in Heq.
    exists (skipn (length p) s).
    rewrite <- Heq at 1. symmetry. apply firstn_skipn.
  - intros [t ->]. apply andb_true_iff. split.
    + apply Nat.leb_le. rewrite length_app. lia.
    + apply Equal_eq. rewrite firstn_app, Nat.sub_diag, firstn_all. simpl.
      now rewrite app_nil_r.
Qed.

Lemma HasSuffix_spec (s p : list byte) :
  HasSuffix s p = true <-> exists t, s = t ++ p.
Proof.
  unfold HasSuffix. split.
  - intros [Hlen Heq]%andb_true_iff. apply Equal_eq in Heq.
    exists (firstn (length s - length p) s).
    rewrite <- Heq at 2. symmetry. apply firstn_skipn.
  - intros [t ->]. apply andb_true_iff. split.
    + apply Nat.leb_le. rewrite length_app. lia.
    + apply Equal_eq. rewrite length_app.
      replace (length t + length p - length p) with (length t) by lia.
      rewrite skipn_app, skipn_all, Nat.sub_diag. reflexivity.
Qed.

Lemma HasPrefix_nil (s : list byte) : HasPrefix s [] = true.
Proof. apply HasPrefix_spec. now exists s. Qed.

Lemma HasPrefix_of_nil (y : byte) (p : list byte) : HasPrefix [] (y :: p) = false.
Proof. reflexivity. Qed.

Lemma HasPrefix_cons (x y : byte) (s p : list byte) :
  HasPrefix (x :: s) (y :: p) = Byte.eqb x y && HasPrefix s p.
Proof.
  unfold HasPrefix. simpl.
  destruct (length p <=? length s), (Byte.eqb x y); reflexivity.
Qed.

Lemma eqb_to_N_neq (x y : byte) :
  Byte.to_N x <> Byte.to_N y -> Byte.eqb x y = false.
Proof.
  intros Hne. destruct (Byte.eqb x y) eqn:E; [|reflexivity].
  apply Byte.byte_dec_bl in E. now subst.
Qed.

(** A slice that starts with [p] is not below [p]. *)
Lemma HasPrefix_not_lt (s p : list byte) : HasPrefix s p = true -> ltb s p = false.
Proof.
  unfold ltb. revert s; induction p as [|y p IH]; intros [|x s]; simpl; auto;
    try discriminate.
  rewrite HasPrefix_cons. intros [Hxy Hsp]%andb_true_iff.
    apply Byte.byte_dec_bl in Hxy as ->. rewrite N.compare_refl. now apply IH.
Qed.

(** Past a key that is not below [p] and does not start with [p], no key
    starts with [p]: the keys under a prefix are contiguous. *)
Lemma HasPrefix_gap (p s s' : list byte) :
  ltb s p = false -> HasPrefix s p = false -> Compare s s' = Lt ->
  HasPrefix s' p = false.
Proof.
  unfold ltb. revert s s'; induction p as [|y p IH]; intros s s'.
  - now rewrite HasPrefix_nil.
  - destruct s as [|x s]; [discriminate|].
    destruct s' as [|x' s']; [discriminate|].
    rewrite !HasPrefix_cons. simpl.
    destruct (N.compare_spec (Byte.to_N x) (Byte.to_N y)) as [Hxy|Hxy|Hxy];
      [|discriminate|]; intros Hge Hpre;
      destruct (N.compare_spec (Byte.to_N x) (Byte.to_N x')) as [Hx|Hx|Hx];
      try discriminate; intros Hlt.
    + apply to_N_inj in Hxy, Hx. subst.
      rewrite (Byte.byte_dec_lb (eq_refl x')) in *. simpl in *. eauto.
    + rewrite eqb_to_N_neq; [reflexivity | lia].
    + rewrite eqb_to_N_neq; [reflexivity | lia].
    + rewrite eqb_to_N_neq; [reflexivity | lia].
Qed.

(** A key of 2 + 32 bytes ends with a 32-byte root exactly when the root is
    its tail. *)
Lemma HasSuffix_key (x y : byte) (r r' : list byte) :
  length r = length r' -> HasSuffix (x :: y :: r) r' = Equal r r'.
Proof.
  intros Hlen. unfold HasSuffix. simpl length. rewrite <- Hlen.
  replace (S (S (length r)) - length r) with 2 by lia.
  replace (length r <=? S (S (length r))) with true
    by (symmetry; apply Nat.leb_le; lia).
  reflexivity.
Qed.

Lemma HasSuffix_nonempty (s r : list byte) :
  r <> [] -> HasSuffix s r = true -> s <> [].
Proof.
  intros Hr [t ->]%HasSuffix_spec Happ.
  apply app_eq_nil in Happ as [_ ?]. contradiction.
Qed.

End BytesFacts.

(* ================================================================== *)
(** ** Facts on the bucket and its cursor *)

Module BucketFacts.
Import Bytes BytesFacts.

Lemma filter_filter {A : Type} (f g : A -> bool) (l : list A) :
  filter f (filter g l) = filter (fun x => g x && f x) l.
Proof.
  induction l as [|x l IH]; simpl; [reflexivity|].
  destruct (g x); simpl; [destruct (f x)|]; now rewrite IH.
Qed.

Lemma filter_length_filter {A : Type} (f g : A -> bool) (l : list A) :
  length (filter f (filter g l)) <= length (filter f l).
Proof.
  induction l as [|x l IH]; simpl; [lia|].
  destruct (g x); simpl; destruct (f x); simpl; lia.
Qed.

Lemma filter_none {A : Type} (f : A -> bool) (l : list A) :
  (forall x, In x l -> f x = false) -> filter f l = [].
Proof.
  induction l as [|x l IH]; simpl; intros Hl; [reflexivity|].
  rewrite (Hl x) by auto. apply IH. auto.
Qed.

Lemma filter_all {A : Type} (f : A -> bool) (l : list A) :
  (forall x, In x l -> f x = true) -> filter f l = l.
Proof.
  induction l as [|x l IH]; simpl; intros Hl; [reflexivity|].
  rewrite (Hl x) by auto. f_equal. apply IH. auto.
Qed.

Lemma StronglySorted_filter {A : Type} (R : A -> A -> Prop) (f : A -> bool)
    (l : list A) :
  StronglySorted R l -> StronglySorted R (filter f l).
Proof.
  induction 1 as [|x l Hl IH Hx]; simpl; [constructor|].
  destruct (f x); [|assumption].
  constructor; [assumption|].
  rewrite Forall_forall in *. intros y [Hy _]%filter_In. auto.
Qed.

Lemma bucket_ok_nil : bucket_ok [].
Proof. constructor. Qed.

Lemma bucket_remove_In (k : key) (b : Bucket) (e : key * value) :
  In e (bucket_remove k b) <-> In e b /\ fst e <> k.
Proof.
  unfold bucket_remove. rewrite filter_In, negb_true_iff, Equal_neq. tauto.
Qed.

Lemma bucket_remove_ok (k : key) (b : Bucket) :
  bucket_ok b -> bucket_ok (bucket_remove k b).
Proof. apply StronglySorted_filter. Qed.

Lemma bucket_mem_In (k : key) (b : Bucket) :
  bucket_mem k b = true <-> exists v, In (k, v) b.
Proof.
  unfold bucket_mem. rewrite existsb_exists. split.
  - intros [[k' v] [Hin Heq]]. apply Equal_eq in Heq. simpl in Heq. subst.
    now exists v.
  - intros [v Hin]. exists (k, v). split; [assumption|apply Equal_refl].
Qed.

Lemma bucket_remove_absent (k : key) (b : Bucket) :
  bucket_mem k b = false -> bucket_remove k b = b.
Proof.
  intros Hmem. apply filter_all. intros [k' v] Hin. simpl.
  apply negb_true_iff, Equal_neq. intros ->.
  assert (bucket_mem k b = true) by (apply bucket_mem_In; eauto). congruence.
Qed.

Lemma purge_ok (r : list byte) (b : Bucket) : bucket_ok b -> bucket_ok (purge r b).
Proof. apply StronglySorted_filter. Qed.

Lemma purge_In (r : list byte) (b : Bucket) (e : key * value) :
  In e (purge r b) <-> In e b /\ HasSuffix (fst e) r = false.
Proof. unfold purge. now rewrite filter_In, negb_true_iff. Qed.

Lemma copies_purge (r : list byte) (b : Bucket) : copies r (purge r b) = [].
Proof.
  apply filter_none. intros e [_ He]%purge_In. assumption.
Qed.

Lemma purge_none (r : list byte) (b : Bucket) :
  (forall e, In e b -> HasSuffix (fst e) r = false) -> purge r b = b.
Proof.
  intros Hb. apply filter_all. intros e He. now rewrite Hb.
Qed.

Lemma bucket_insert_In_inv (k : key) (v : value) (b : Bucket) (e : key * value) :
  In e (bucket_insert k v b) -> e = (k, v) \/ In e b.
Proof.
  induction b as [|[k' v'] b IH]; simpl.
  - intuition.
  - destruct (Compare k k'); simpl; intuition.
Qed.

Lemma bucket_insert_ok (k : key) (v : value) (b : Bucket) :
  bucket_ok b -> bucket_ok (bucket_insert k v b).
Proof.
  unfold bucket_ok.
  induction 1 as [|[k' v'] b Hb IH Hk']; simpl.
  - constructor; constructor.
  - destruct (Compare k k') eqn:Hc.
    + apply Compare_eq in Hc. subst k'. constructor; assumption.
    + constructor; [constructor; assumption|].
      constructor; [exact Hc|].
      rewrite Forall_forall in *. intros e He. unfold key_lt in *. simpl in *.
      eapply Compare_lt_trans; [exact Hc | exact (Hk' e He)].
    + constructor; [assumption|].
      rewrite Forall_forall in *. intros e [->|He]%bucket_insert_In_inv.
      * unfold key_lt. simpl. now apply Compare_gt_lt.
      * auto.
Qed.

(** Inserting a key the bucket does not hold adds one pair and moves no
    other. *)
Lemma bucket_insert_split (k : key) (v : value) (b : Bucket) :
  (forall e, In e b -> fst e <> k) ->
  exists l1 l2, b = l1 ++ l2 /\ bucket_insert k v b = l1 ++ (k, v) :: l2.
Proof.
  induction b as [|[k' v'] b IH]; simpl; intros Hfresh.
  - now exists [], [].
  - destruct (Compare k k') eqn:Hc.
    + apply Compare_eq in Hc. subst k'.
      now destruct (Hfresh (k, v') (or_introl eq_refl)).
    + now exists [], ((k', v') :: b).
    + destruct IH as (l1 & l2 & Hb & Hins); [auto|].
      exists ((k', v') :: l1), l2. simpl. now rewrite <- Hb, Hins.
Qed.

Lemma bucket_insert_In (k : key) (v : value) (b : Bucket) :
  In (k, v) (bucket_insert k v b).
Proof.
  induction b as [|[k' v'] b IH]; simpl; [auto|].
  destruct (Compare k k'); simpl; auto.
Qed.

End BucketFacts.

(* ================================================================== *)
(** ** Facts on the loops of the store *)

Module StoreFacts.
Import Bytes BytesFacts BucketFacts.

Lemma scanEncoded_acc (p : key) (c : Cursor) (acc : list value) :
  scanEncoded p c acc = acc ++ scanEncoded p c [].
Proof.
  revert acc; induction c as [|[k v] c IH]; intros acc; simpl.
  - now rewrite app_nil_r.
  - destruct (HasPrefix k p); [|now rewrite app_nil_r].
    rewrite IH, (IH [v]). now rewrite app_assoc.
Qed.

(** From a position where no key is below the prefix, the loop reads the
    values of exactly the keys under the prefix. *)
Lemma scanEncoded_ge (p : key) (c : Cursor) :
  StronglySorted key_lt c ->
  Forall (fun e => ltb (fst e) p = false) c ->
  scanEncoded p c [] = map snd (under p c).
Proof.
  induction 1 as [|[k v] c Hc IH Hk]; intros Hge; simpl; [reflexivity|].
  inversion Hge as [|? ? Hk_ge Hc_ge]; subst. simpl in Hk_ge.
  destruct (HasPrefix k p) eqn:Hpre.
  - rewrite scanEncoded_acc. simpl. f_equal. now apply IH.
  - unfold under. rewrite filter_none; [reflexivity|].
    intros e He. rewrite Forall_forall in Hk.
    exact (HasPrefix_gap p _ _ Hk_ge Hpre (Hk e He)).
Qed.

(** On a sorted bucket, [Seek] followed by the prefix loop reads the values
    under the prefix, all of them, in key order. *)
Lemma scanEncoded_Seek (p : key) (b : Bucket) :
  bucket_ok b -> scanEncoded p (Cursor_Seek p b) [] = map snd (under p b).
Proof.
  induction 1 as [|[k v] b Hb IH Hk]; simpl; [reflexivity|].
  destruct (ltb k p) eqn:Hlt.
  - destruct (HasPrefix k p) eqn:Hpre; [|exact IH].
    apply HasPrefix_not_lt in Hpre. congruence.
  - apply (scanEncoded_ge p ((k, v) :: b)).
    + constructor; assumption.
    + constructor; [exact Hlt|].
      rewrite Forall_forall in *. intros e He.
      destruct (ltb (fst e) p) eqn:Hep; [exfalso|exact Hep].
      unfold ltb in Hlt, Hep.
      destruct (Compare (fst e) p) eqn:Hcmp; try discriminate.
      pose proof (Compare_lt_trans _ _ _ (Hk e He) Hcmp) as Hkp.
      simpl in Hkp. rewrite Hkp in Hlt. discriminate.
Qed.

Lemma collectKeys_spec (r : list byte) (c : Cursor) (acc : list key) :
  collectKeys r c acc = acc ++ map fst (copies r c).
Proof.
  revert acc; induction c as [|[k v] c IH]; intros acc; simpl.
  - now rewrite app_nil_r.
  - rewrite IH. destruct (HasSuffix k r); simpl; [|reflexivity].
    now rewrite <- app_assoc.
Qed.

Lemma remove_all_spec (ks : list key) (b : Bucket) :
  fold_left (fun b k => bucket_remove k b) ks b =
  filter (fun e => negb (existsb (Equal (fst e)) ks)) b.
Proof.
  revert b; induction ks as [|k ks IH]; intros b; simpl.
  - symmetry. now apply filter_all.
  - rewrite IH. unfold bucket_remove. rewrite filter_filter.
    apply filter_ext. intros e. now rewrite negb_orb.
Qed.

Lemma remove_copies (r : list byte) (b : Bucket) :
  fold_left (fun b k => bucket_remove k b) (map fst (copies r b)) b = purge r b.
Proof.
  rewrite remove_all_spec. apply filter_ext_in. intros [k v] Hin. simpl.
  f_equal. destruct (HasSuffix k r) eqn:Hsuf.
  - apply existsb_exists. exists k. split; [|apply Equal_refl].
    apply in_map_iff. exists (k, v). split; [reflexivity|].
    apply filter_In. auto.
  - destruct (existsb (Equal k) (map fst (copies r b))) eqn:Hex; [|reflexivity].
    apply existsb_exists in Hex as (k' & Hk' & Heq). apply Equal_eq in Heq.
    subst k'. apply in_map_iff in Hk' as ([k' v'] & Hfst & Hin').
    simpl in Hfst. subst k'. apply filter_In in Hin' as [_ Hs]. simpl in Hs.
    congruence.
Qed.

Section WithCollaborators.
Context {C : Collaborators}.

Lemma Bucket_Delete_None (k : key) (b b' : Bucket) :
  Bucket_Delete k b = (b', None) -> b' = bucket_remove k b.
Proof.
  unfold Bucket_Delete. destruct (bucket_mem k b) eqn:Hmem.
  - destruct (delete_fault k); intros Heq; now inversion Heq.
  - intros Heq. inversion Heq. subst. symmetry. now apply bucket_remove_absent.
Qed.

Lemma Bucket_Delete_Some (k : key) (b b' : Bucket) (e : error) :
  Bucket_Delete k b = (b', Some e) ->
  b' = b /\ bucket_mem k b = true /\ delete_fault k = Some e.
Proof.
  unfold Bucket_Delete. destruct (bucket_mem k b).
  - destruct (delete_fault k); intros Heq; inversion Heq; auto.
  - discriminate.
Qed.

Lemma Bucket_Delete_absent (k : key) (b : Bucket) :
  bucket_mem k b = false -> Bucket_Delete k b = (b, None).
Proof. unfold Bucket_Delete. now intros ->. Qed.

Lemma deleteKeys_None (ks : list key) (b b' : Bucket) :
  deleteKeys ks b = (b', None) ->
  b' = fold_left (fun b k => bucket_remove k b) ks b.
Proof.
  revert b; induction ks as [|k ks IH]; intros b; simpl.
  - intros Heq. now inversion Heq.
  - destruct (Bucket_Delete k b) as [b1 [e|]] eqn:Hd; [discriminate|].
    apply Bucket_Delete_None in Hd. subst b1. apply IH.
Qed.

Lemma create_Ok (v : value) (e : AttesterSlashing) :
  createAttesterSlashing v = Ok e <-> Unmarshal v = Ok e.
Proof.
  unfold createAttesterSlashing.
  destruct (Unmarshal v); split; intros Heq; inversion Heq; reflexivity.
Qed.

Lemma create_Fail (v : value) :
  (exists err, Unmarshal v = Fail err) ->
  exists err, createAttesterSlashing v = Fail err.
Proof.
  unfold createAttesterSlashing. intros [err ->]. eauto.
Qed.

Lemma decodeEncoded_Forall2 (vs : list value) (es acc : list AttesterSlashing)
    (err : option error) :
  Forall2 (fun v e => Unmarshal v = Ok e) vs es ->
  decodeEncoded vs acc err = (acc ++ es, err).
Proof.
  intros Hall. revert acc.
  induction Hall as [|v e vs es Hv Hall IH]; intros acc; simpl.
  - now rewrite app_nil_r.
  - apply create_Ok in Hv. rewrite Hv, IH, <- app_assoc. reflexivity.
Qed.

Lemma decodeEncoded_None (vs : list value) (acc : list AttesterSlashing) :
  snd (decodeEncoded vs acc None) = None ->
  exists es, Forall2 (fun v e => Unmarshal v = Ok e) vs es.
Proof.
  revert acc; induction vs as [|v vs IH]; intros acc; simpl.
  - exists []. constructor.
  - destruct (createAttesterSlashing v) as [e|err] eqn:Hv; [|discriminate].
    intros Hnone. destruct (IH _ Hnone) as [es Hes].
    exists (e :: es). constructor; [now apply create_Ok|assumption].
Qed.

Lemma decodeEncoded_bad (vs : list value) (acc : list AttesterSlashing)
    (err : option error) (v : value) :
  In v vs -> (exists e, Unmarshal v = Fail e) ->
  exists e', decodeEncoded vs acc err = ([], Some e').
Proof.
  intros Hin Hbad. revert acc.
  induction vs as [|v' vs IH]; intros acc; simpl; [contradiction|].
  destruct (createAttesterSlashing v') as [e|e'] eqn:Hv'; [|eauto].
  destruct Hin as [->|Hin]; [|auto].
  apply create_Fail in Hbad as [e' He']. congruence.
Qed.

Lemma Forall2_decodable (vs : list value) :
  (forall v, In v vs -> exists e, Unmarshal v = Ok e) ->
  exists es, Forall2 (fun v e => Unmarshal v = Ok e) vs es.
Proof.
  induction vs as [|v vs IH]; intros Hall.
  - exists []. constructor.
  - destruct (Hall v (or_introl eq_refl)) as [e He].
    destruct IH as [es Hes]; [intros; apply Hall; now right|].
    exists (e :: es). now constructor.
Qed.

(** The two listing loops agree: they fail together, and when they do not
    fail they build the same list. *)
Lemma scanDecode_decodeEncoded (p : key) (c : Cursor)
    (acc : list AttesterSlashing) :
  snd (scanDecode p c acc) = snd (decodeEncoded (scanEncoded p c []) acc None) /\
  (snd (scanDecode p c acc) = None ->
   scanDecode p c acc = decodeEncoded (scanEncoded p c []) acc None).
Proof.
  revert acc; induction c as [|[k v] c IH]; intros acc; simpl; [auto|].
  destruct (HasPrefix k p); [|simpl; auto].
  rewrite scanEncoded_acc. simpl.
  destruct (createAttesterSlashing v) as [e|err]; [apply IH|].
  simpl. split; [reflexivity|discriminate].
Qed.

Lemma Cursor_Seek_incl (p : key) (b : Bucket) (e : key * value) :
  In e (Cursor_Seek p b) -> In e b.
Proof.
  induction b as [|[k v] b IH]; simpl; [auto|].
  destruct (ltb k p); auto.
Qed.

Lemma scanEncoded_In (p : key) (c : Cursor) (v : value) :
  In v (scanEncoded p c []) -> exists k, In (k, v) c /\ HasPrefix k p = true.
Proof.
  induction c as [|[k v'] c IH]; simpl; [contradiction|].
  destruct (HasPrefix k p) eqn:Hpre; [|contradiction].
  rewrite scanEncoded_acc. simpl. intros [->|Hin]; [eauto|].
  destruct (IH Hin) as (k' & Hk' & Hp'). eauto.
Qed.

End WithCollaborators.
End StoreFacts.

(* ================================================================== *)
(** ** What each operation does to the table *)

Module Transition.
Import Bytes BytesFacts BucketFacts StoreFacts.

Lemma scanHas_skip (r : list byte) (l : Bucket) (c : Cursor) :
  (forall e, In e l -> HasSuffix (fst e) r = false) ->
  scanHas r (l ++ c) = scanHas r c.
Proof.
  induction l as [|[k v] l IH]; simpl; intros Hl; [reflexivity|].
  rewrite (Hl (k, v) (or_introl eq_refl) : HasSuffix k r = false).
  apply IH. auto.
Qed.

Lemma scanHas_none (r : list byte) (c : Cursor) :
  (forall e, In e c -> HasSuffix (fst e) r = false) ->
  scanHas r c = (false, Byte.x00).
Proof.
  intros Hc. rewrite <- (app_nil_r c). now rewrite scanHas_skip.
Qed.

(** When the loop of [HasAttesterSlashing] finds a key, the key ends with
    the root and the status is its first byte: [k[0]] is in range. *)
Lemma scanHas_found (r : Root) (c : Cursor) (st : SlashingStatus) :
  scanHas (root_bytes r) c = (true, st) ->
  exists k v, In (k, v) c /\ HasSuffix k (root_bytes r) = true /\
              nth_error k 0 = Some st.
Proof.
  induction c as [|[k v] c IH]; simpl; [discriminate|].
  destruct (HasSuffix k (root_bytes r)) eqn:Hs.
  - intros Heq. inversion Heq; subst. exists k, v. repeat split; auto.
    assert (Hk : k <> []).
    { apply (HasSuffix_nonempty k (root_bytes r)); [|assumption].
      intros Hnil. pose proof (root_len r) as Hlen. rewrite Hnil in Hlen.
      discriminate. }
    destruct k; [contradiction|reflexivity].
  - intros Hrest. destruct (IH Hrest) as (k' & v' & Hin & Hk'). eauto.
Qed.

Lemma key_HasSuffix (s t : byte) (r : Root) :
  HasSuffix (encodeStatusTypeRoot s t r) (root_bytes r) = true.
Proof.
  unfold encodeStatusTypeRoot. rewrite HasSuffix_key by reflexivity.
  apply Equal_refl.
Qed.

(** A key of the store ends with one root only. *)
Lemma key_HasSuffix_inv (s t : byte) (r : Root) (r0 : list byte) :
  length r0 = 32 ->
  HasSuffix (encodeStatusTypeRoot s t r) r0 = true -> r0 = root_bytes r.
Proof.
  intros Hlen. unfold encodeStatusTypeRoot.
  rewrite HasSuffix_key by (rewrite root_len; auto).
  intros Heq. apply Equal_eq in Heq. auto.
Qed.

Lemma purge_fresh (s t : byte) (r : Root) (b : Bucket) (e : key * value) :
  In e (purge (root_bytes r) b) -> fst e <> encodeStatusTypeRoot s t r.
Proof.
  intros [_ He]%purge_In Heq. rewrite Heq, key_HasSuffix in He. discriminate.
Qed.

(** The table [updateAttesterSlashingStatus] commits: one new pair in the
    purged table, every other pair at its place. *)
Lemma insert_purge_split (s t : byte) (r : Root) (enc : value) (b : Bucket) :
  exists l1 l2,
    purge (root_bytes r) b = l1 ++ l2 /\
    bucket_insert (encodeStatusTypeRoot s t r) enc (purge (root_bytes r) b) =
      l1 ++ (encodeStatusTypeRoot s t r, enc) :: l2.
Proof.
  apply bucket_insert_split. intros e He. exact (purge_fresh s t r b e He).
Qed.

Lemma scanHas_insert_purge (s t : byte) (r : Root) (enc : value) (b : Bucket) :
  scanHas (root_bytes r)
    (bucket_insert (encodeStatusTypeRoot s t r) enc (purge (root_bytes r) b)) =
  (true, s).
Proof.
  destruct (insert_purge_split s t r enc b) as (l1 & l2 & Hp & ->).
  rewrite scanHas_skip.
  - simpl. now rewrite key_HasSuffix.
  - intros e He. apply (purge_In (root_bytes r) b).
    rewrite Hp. apply in_or_app. now left.
Qed.

Lemma copies_insert_purge (s t : byte) (r : Root) (enc : value) (b : Bucket) :
  copies (root_bytes r)
    (bucket_insert (encodeStatusTypeRoot s t r) enc (purge (root_bytes r) b)) =
  [(encodeStatusTypeRoot s t r, enc)].
Proof.
  destruct (insert_purge_split s t r enc b) as (l1 & l2 & Hp & ->).
  pose proof (copies_purge (root_bytes r) b) as Hnone.
  rewrite Hp in Hnone. unfold copies in *.
  rewrite filter_app in Hnone. apply app_eq_nil in Hnone as [H1 H2].
  rewrite filter_app. simpl. now rewrite key_HasSuffix, H1, H2.
Qed.

Lemma copies_insert_other (s t : byte) (r : Root) (enc : value) (b : Bucket)
    (r0 : list byte) :
  length r0 = 32 -> r0 <> root_bytes r ->
  length (copies r0
    (bucket_insert (encodeStatusTypeRoot s t r) enc (purge (root_bytes r) b)))
  <= length (copies r0 b).
Proof.
  intros Hlen Hne.
  destruct (insert_purge_split s t r enc b) as (l1 & l2 & Hp & ->).
  assert (Hk : HasSuffix (encodeStatusTypeRoot s t r) r0 = false).
  { destruct (HasSuffix (encodeStatusTypeRoot s t r) r0) eqn:Hs; [|reflexivity].
    apply key_HasSuffix_inv in Hs; [contradiction|assumption]. }
  unfold copies. rewrite filter_app. simpl. rewrite Hk, <- filter_app, <- Hp.
  apply filter_length_filter.
Qed.

Section WithCollaborators.
Context {C : Collaborators}.

Lemma update_Some (fn : Bucket -> Bucket * option error) (b b' : Bucket)
    (e : error) :
  update fn b = (b', Some e) -> b' = b.
Proof.
  unfold update. destruct (fn b) as [b1 [e1|]]; intros Heq; now inversion Heq.
Qed.

Lemma update_None (fn : Bucket -> Bucket * option error) (b b' : Bucket) :
  update fn b = (b', None) -> fn b = (b', None).
Proof.
  unfold update. destruct (fn b) as [b1 [e1|]]; intros Heq; now inversion Heq.
Qed.

Lemma updateStatus_Some (E : AttesterSlashing) (s : SlashingStatus)
    (b b' : Bucket) (e : error) :
  updateAttesterSlashingStatus E s b = (b', Some e) -> b' = b.
Proof.
  unfold updateAttesterSlashingStatus. destruct (HashTreeRoot E).
  - apply update_Some.
  - intros Heq. now inversion Heq.
Qed.

Lemma updateStatus_None (E : AttesterSlashing) (s : SlashingStatus)
    (b b' : Bucket) :
  updateAttesterSlashingStatus E s b = (b', None) ->
  exists r enc,
    HashTreeRoot E = Ok r /\ Marshal E = Ok enc /\
    b' = bucket_insert (encodeStatusTypeRoot s Attestation r) enc
           (purge (root_bytes r) b).
Proof.
  unfold updateAttesterSlashingStatus.
  destruct (HashTreeRoot E) as [r|]; [|discriminate].
  intros Hup%update_None. unfold Cursor_First in Hup.
  destruct (deleteKeys _ b) as [b1 [e1|]] eqn:Hdel; [discriminate|].
  apply deleteKeys_None in Hdel.
  rewrite collectKeys_spec in Hdel. simpl in Hdel.
  rewrite remove_copies in Hdel. subst b1.
  destruct (Marshal E) as [enc|]; [|discriminate].
  exists r, enc. repeat split.
  unfold Bucket_Put in Hup. destruct (put_fault _ enc); now inversion Hup.
Qed.

Lemma Has_insert_purge (E : AttesterSlashing) (s : SlashingStatus) (r : Root)
    (enc : value) (b : Bucket) :
  HashTreeRoot E = Ok r ->
  HasAttesterSlashing E
    (bucket_insert (encodeStatusTypeRoot s Attestation r) enc
       (purge (root_bytes r) b)) = (true, s, None).
Proof.
  intros Hr. unfold HasAttesterSlashing, view, Cursor_First. rewrite Hr.
  now rewrite scanHas_insert_purge.
Qed.

(** The three ways [SaveAttesterSlashing] ends: with an error and the table
    as it was; as a no-op because the slashing is stored under the status;
    or with the table the transition commits. *)
Lemma Save_inv (s : SlashingStatus) (E : AttesterSlashing) (b : Bucket) :
  (exists e, SaveAttesterSlashing s E b = (b, Some e)) \/
  (SaveAttesterSlashing s E b = (b, None) /\
   HasAttesterSlashing E b = (true, s, None)) \/
  (exists r enc,
     HashTreeRoot E = Ok r /\ Marshal E = Ok enc /\
     SaveAttesterSlashing s E b =
       (bucket_insert (encodeStatusTypeRoot s Attestation r) enc
          (purge (root_bytes r) b), None)).
Proof.
  unfold SaveAttesterSlashing.
  destruct (HasAttesterSlashing E b) as [[found st] [e|]] eqn:Hhas; [eauto|].
  destruct (found && Byte.eqb st s) eqn:Hsame.
  - apply andb_true_iff in Hsame as [-> Hst].
    apply Byte.byte_dec_bl in Hst. subst st. auto.
  - destruct (updateAttesterSlashingStatus E s b) as [b' [e|]] eqn:Hup.
    + apply updateStatus_Some in Hup. subst b'. eauto.
    + apply updateStatus_None in Hup as (r & enc & Hr & Henc & ->).
      right. right. eauto.
Qed.

Lemma Has_after_Save (s : SlashingStatus) (E : AttesterSlashing) (b : Bucket) :
  snd (SaveAttesterSlashing s E b) = None ->
  HasAttesterSlashing E (fst (SaveAttesterSlashing s E b)) = (true, s, None).
Proof.
  destruct (Save_inv s E b) as [[e Hs]|[[Hs Hhas]|(r & enc & Hr & _ & Hs)]];
    rewrite Hs; simpl; intros Hnone.
  - discriminate.
  - assumption.
  - now apply Has_insert_purge.
Qed.

(** Once the root is computed, [DeleteAttesterSlashing] returns nil whatever
    the engine answered to its deletes. *)
Lemma Delete_returns_nil (E : AttesterSlashing) (r : Root) (b : Bucket) :
  HashTreeRoot E = Ok r -> snd (DeleteAttesterSlashing E b) = None.
Proof.
  intros Hr. unfold DeleteAttesterSlashing, update. now rewrite Hr.
Qed.

Lemma forEachDelete_none (r : list byte) (c : Cursor) (b : Bucket) :
  (forall e, In e c -> HasSuffix (fst e) r = false) -> forEachDelete r c b = b.
Proof.
  revert b; induction c as [|[k v] c IH]; intros b Hc; simpl; [reflexivity|].
  rewrite (Hc (k, v) (or_introl eq_refl) : HasSuffix k r = false).
  apply IH. intros e He. apply Hc. now right.
Qed.



(** Each step of the callback loop keeps the table or removes one key. *)
Lemma forEachDelete_preserves (P : Bucket -> Prop) (r : list byte) :
  (forall k b, P b -> P (bucket_remove k b)) ->
  forall c b, P b -> P (forEachDelete r c b).
Proof.
  intros Hrem. induction c as [|[k v] c IH]; intros b Hb; simpl; [assumption|].
  apply IH. destruct (HasSuffix k r); [|assumption].
  unfold Bucket_Delete. destruct (bucket_mem k b); [|assumption].
  destruct (delete_fault k); simpl; auto.
Qed.

Lemma DeleteWithStatus_cases (s : SlashingStatus) (E : AttesterSlashing)
    (b : Bucket) :
  fst (DeleteAttesterSlashingWithStatus s E b) = b \/
  exists r, HashTreeRoot E = Ok r /\
    fst (DeleteAttesterSlashingWithStatus s E b) =
      bucket_remove (encodeStatusTypeRoot s Attestation r) b.
Proof.
  unfold DeleteAttesterSlashingWithStatus.
  destruct (HashTreeRoot E) as [r|]; [|now left].
  unfold update.
  destruct (Bucket_Delete _ b) as [b1 [e|]] eqn:Hd; [now left|].
  apply Bucket_Delete_None in Hd. subst b1. right. eauto.
Qed.

End WithCollaborators.
End Transition.

(* ================================================================== *)
(** ** Invariants of the table *)

Module Invariants.
Import Bytes BytesFacts BucketFacts StoreFacts Transition.

Section WithCollaborators.
Context {C : Collaborators}.

Lemma store_wf_incl (b b' : Bucket) :
  (forall e, In e b' -> In e b) -> store_wf b -> store_wf b'.
Proof. intros Hincl Hwf k v Hin. apply Hwf. auto. Qed.

Lemma store_wf_remove (k : key) (b : Bucket) :
  store_wf b -> store_wf (bucket_remove k b).
Proof.
  apply store_wf_incl. intros e He. now apply bucket_remove_In in He.
Qed.

Lemma store_wf_purge (r : list byte) (b : Bucket) :
  store_wf b -> store_wf (purge r b).
Proof.
  apply store_wf_incl. intros e He. now apply purge_In in He.
Qed.

Lemma store_wf_insert (s : SlashingStatus) (E : AttesterSlashing) (r : Root)
    (enc : value) (b : Bucket) :
  HashTreeRoot E = Ok r -> Marshal E = Ok enc -> store_wf b ->
  store_wf (bucket_insert (encodeStatusTypeRoot s Attestation r) enc b).
Proof.
  intros Hr Henc Hwf k v Hin Hty.
  apply bucket_insert_In_inv in Hin as [Heq|Hin]; [|now apply Hwf].
  inversion Heq; subst. exists s, E, r. auto.
Qed.

Lemma Save_ok (s : SlashingStatus) (E : AttesterSlashing) (b : Bucket) :
  bucket_ok b -> bucket_ok (fst (SaveAttesterSlashing s E b)).
Proof.
  intros Hb.
  destruct (Save_inv s E b) as [[e ->]|[[-> _]|(r & enc & _ & _ & ->)]];
    simpl; auto.
  now apply bucket_insert_ok, purge_ok.
Qed.

Lemma Save_wf (s : SlashingStatus) (E : AttesterSlashing) (b : Bucket) :
  store_wf b -> store_wf (fst (SaveAttesterSlashing s E b)).
Proof.
  intros Hb.
  destruct (Save_inv s E b) as [[e ->]|[[-> _]|(r & enc & Hr & Henc & ->)]];
    simpl; auto.
  apply (store_wf_insert s E r enc); auto. now apply store_wf_purge.
Qed.

Lemma DeleteWithStatus_ok (s : SlashingStatus) (E : AttesterSlashing)
    (b : Bucket) :
  bucket_ok b -> bucket_ok (fst (DeleteAttesterSlashingWithStatus s E b)).
Proof.
  intros Hb. destruct (DeleteWithStatus_cases s E b) as [->|(r & _ & ->)];
    [assumption|]. now apply bucket_remove_ok.
Qed.

Lemma DeleteWithStatus_wf (s : SlashingStatus) (E : AttesterSlashing)
    (b : Bucket) :
  store_wf b -> store_wf (fst (DeleteAttesterSlashingWithStatus s E b)).
Proof.
  intros Hb. destruct (DeleteWithStatus_cases s E b) as [->|(r & _ & ->)];
    [assumption|]. now apply store_wf_remove.
Qed.

Lemma Delete_preserves (P : Bucket -> Prop) (E : AttesterSlashing) (b : Bucket) :
  (forall k b, P b -> P (bucket_remove k b)) ->
  P b -> P (fst (DeleteAttesterSlashing E b)).
Proof.
  intros Hrem Hb. unfold DeleteAttesterSlashing, update, Cursor_First.
  destruct (HashTreeRoot E); simpl; [|assumption].
  now apply forEachDelete_preserves.
Qed.

(** Every table the store reaches from the empty bucket is sorted and holds,
    under the attestation type, only records the store wrote. *)
Lemma reachable_inv (b : Bucket) : reachable b -> bucket_ok b /\ store_wf b.
Proof.
  induction 1 as [|c b Hb [Hok Hwf]].
  - split; [apply bucket_ok_nil|]. intros k v [].
  - destruct c as [s E|s E|E]; simpl; split.
    + now apply Save_ok.
    + now apply Save_wf.
    + now apply DeleteWithStatus_ok.
    + now apply DeleteWithStatus_wf.
    + apply (Delete_preserves bucket_ok); [apply bucket_remove_ok|assumption].
    + apply (Delete_preserves store_wf); [apply store_wf_remove|assumption].
Qed.

Lemma prefix_type_byte (s t : byte) (k : key) :
  HasPrefix k (encodeStatusType s t) = true -> nth_error k 1 = Some t.
Proof. intros [tl ->]%HasPrefix_spec. reflexivity. Qed.

(** A record listed under a status and decoding to [E] is stored under the
    key of [E] for that status. *)
Lemma listed_is_stored (s : SlashingStatus) (E : AttesterSlashing) (r : Root)
    (b : Bucket) (k : key) (v : value) :
  codec_roundtrip -> store_wf b -> HashTreeRoot E = Ok r ->
  In (k, v) b -> HasPrefix k (encodeStatusType s Attestation) = true ->
  Unmarshal v = Ok E ->
  k = encodeStatusTypeRoot s Attestation r.
Proof.
  intros Hrt Hwf Hr Hin Hpre Hv.
  destruct (Hwf k v Hin (prefix_type_byte _ _ _ Hpre))
    as (s' & E' & r' & Hr' & -> & Henc).
  apply Hrt in Henc. rewrite Henc in Hv. inversion Hv; subst E'.
  rewrite Hr in Hr'. inversion Hr'; subst r'.
  unfold encodeStatusTypeRoot, encodeStatusType in *.
  rewrite HasPrefix_cons in Hpre. apply andb_true_iff in Hpre as [Hs _].
  apply Byte.byte_dec_bl in Hs. now subst.
Qed.

Lemma under_decodable (s : SlashingStatus) (b : Bucket) :
  codec_roundtrip -> store_wf b ->
  forall v, In v (map snd (under (encodeStatusType s Attestation) b)) ->
    exists e, Unmarshal v = Ok e.
Proof.
  intros Hrt Hwf v ([k v'] & Hv & [Hin Hpre]%filter_In)%in_map_iff.
  simpl in *. subst v'.
  destruct (Hwf k v Hin (prefix_type_byte _ _ _ Hpre))
    as (_ & E' & _ & _ & _ & Henc).
  exists E'. now apply Hrt.
Qed.

Lemma Forall2_In_r {A B : Type} (R : A -> B -> Prop) (l : list A) (l' : list B)
    (y : B) :
  Forall2 R l l' -> In y l' -> exists x, In x l /\ R x y.
Proof.
  induction 1 as [|x y' l l' Hxy Hall IH]; simpl; [contradiction|].
  intros [->|Hin]; [eauto|].
  destruct (IH Hin) as (x' & Hx' & HR). eauto.
Qed.

(** On a sorted table of records of the store, [AttesterSlashings] returns
    no error and the decoded values under the status prefix, in key order. *)
Lemma AttesterSlashings_spec (s : SlashingStatus) (b : Bucket) :
  codec_roundtrip -> bucket_ok b -> store_wf b ->
  exists es,
    AttesterSlashings s b = (es, None) /\
    Forall2 (fun v e => Unmarshal v = Ok e)
      (map snd (under (encodeStatusType s Attestation) b)) es.
Proof.
  intros Hrt Hok Hwf.
  destruct (Forall2_decodable _ (under_decodable s b Hrt Hwf)) as [es Hes].
  exists es. split; [|assumption].
  unfold AttesterSlashings, view. rewrite scanEncoded_Seek by assumption.
  now rewrite (decodeEncoded_Forall2 _ es).
Qed.

(** A listing that returns no error on a sorted bucket holds the decoded
    values under the status prefix, in key order. *)
Lemma listing_in_key_order (s : SlashingStatus) (b : Bucket) :
  bucket_ok b -> snd (AttesterSlashings s b) = None ->
  Forall2 (fun v e => Unmarshal v = Ok e)
    (map snd (under (encodeStatusType s Attestation) b))
    (fst (AttesterSlashings s b)).
Proof.
  unfold AttesterSlashings, view. intros Hok.
  rewrite scanEncoded_Seek by assumption. intros Hnone.
  destruct (decodeEncoded_None _ _ Hnone) as [es Hes].
  now rewrite (decodeEncoded_Forall2 _ es).
Qed.

(** Pairs whose key does not end with the root of [E] do not decode to [E]
    in a listing. *)
Lemma no_copy_not_listed (s : SlashingStatus) (E : AttesterSlashing) (r : Root)
    (b l : Bucket) (es : list AttesterSlashing) :
  codec_roundtrip -> store_wf b -> HashTreeRoot E = Ok r ->
  (forall e, In e l -> In e b) ->
  (forall e, In e l -> HasSuffix (fst e) (root_bytes r) = false) ->
  Forall2 (fun v e => Unmarshal v = Ok e)
    (map snd (under (encodeStatusType s Attestation) l)) es ->
  ~ In E es.
Proof.
  intros Hrt Hwf Hr Hincl Hnone Hall HE.
  destruct (Forall2_In_r _ _ _ _ Hall HE) as (v & Hv & Hdec).
  apply in_map_iff in Hv as ([k v'] & Hsnd & [Hin Hpre]%filter_In).
  simpl in *. subst v'.
  pose proof (listed_is_stored s E r b k v Hrt Hwf Hr (Hincl _ Hin) Hpre Hdec)
    as Hk.
  specialize (Hnone _ Hin). simpl in Hnone.
  rewrite Hk, key_HasSuffix in Hnone. discriminate.
Qed.

End WithCollaborators.
End Invariants.

(* ================================================================== *)
(** ** Properties of the store *)

Module Properties.
Import Bytes BytesFacts BucketFacts StoreFacts Transition Invariants.

Section WithCollaborators.
Context {C : Collaborators}.

(** One [SaveAttesterSlashing] keeps at most one copy of any root. *)
Lemma Save_copies_le (r0 : list byte) (s : SlashingStatus)
    (E : AttesterSlashing) (b : Bucket) :
  length r0 = 32 -> length (copies r0 b) <= 1 ->
  length (copies r0 (fst (SaveAttesterSlashing s E b))) <= 1.
Proof.
  intros Hlen Hb.
  destruct (Save_inv s E b) as [[e ->]|[[-> _]|(r & enc & _ & _ & ->)]];
    simpl; auto.
  destruct (list_eq_dec Byte.byte_eq_dec r0 (root_bytes r)) as [->|Hne].
  - rewrite copies_insert_purge. simpl. lia.
  - etransitivity; [apply copies_insert_other; assumption|assumption].
Qed.

Lemma saveAll_copies_le (r0 : list byte)
    (calls : list (SlashingStatus * AttesterSlashing)) (b : Bucket) :
  length r0 = 32 -> length (copies r0 b) <= 1 ->
  length (copies r0 (saveAll calls b)) <= 1.
Proof.
  intros Hlen. revert b; induction calls as [|[s E] calls IH]; intros b Hb;
    simpl; [assumption|].
  apply IH. now apply Save_copies_le.
Qed.

(** C1.  Uniqueness: whatever sequence of saves runs on a table that holds
    at most one key ending with the root of [E] (the empty table is one),
    the resulting table holds at most one such key.  A save that finds the
    slashing absent, or stored under another status, is the transition
    routine; and a transition that commits leaves the purged table (no key
    ending with the root) with exactly one pair added, the only key ending
    with the root. *)
Theorem C1_save_keeps_one_copy
    (calls : list (SlashingStatus * AttesterSlashing))
    (E : AttesterSlashing) (r : Root) (b0 : Bucket) :
  HashTreeRoot E = Ok r ->
  length (copies (root_bytes r) b0) <= 1 ->
  length (copies (root_bytes r) (saveAll calls b0)) <= 1 /\
  (forall s E' b found st,
     HasAttesterSlashing E' b = (found, st, None) ->
     found && Byte.eqb st s = false ->
     SaveAttesterSlashing s E' b = updateAttesterSlashingStatus E' s b) /\
  (forall s E' b b',
     updateAttesterSlashingStatus E' s b = (b', None) ->
     exists r' enc l1 l2,
       HashTreeRoot E' = Ok r' /\ Marshal E' = Ok enc /\
       copies (root_bytes r') (purge (root_bytes r') b) = [] /\
       purge (root_bytes r') b = l1 ++ l2 /\
       b' = l1 ++ (encodeStatusTypeRoot s Attestation r', enc) :: l2 /\
       copies (root_bytes r') b' =
         [(encodeStatusTypeRoot s Attestation r', enc)]).
Proof.
  intros Hr Hb0. split; [|split].
  - apply saveAll_copies_le; [apply root_len|assumption].
  - intros s E' b found st Hhas Hsame. unfold SaveAttesterSlashing.
    now rewrite Hhas, Hsame.
  - intros s E' b b' (r' & enc & Hr' & Henc & ->)%updateStatus_None.
    destruct (insert_purge_split s Attestation r' enc b)
      as (l1 & l2 & Hp & Hins).
    exists r', enc, l1, l2. repeat split; auto.
    + apply copies_purge.
    + apply copies_insert_purge.
Qed.

(** C2.  Idempotent save: from any table, a second [SaveAttesterSlashing]
    with the same status and slashing leaves the table the first one left;
    and when the first one succeeded the second one is a no-op returning
    nil. *)
Theorem C2_save_twice (s : SlashingStatus) (E : AttesterSlashing) (b : Bucket) :
  fst (SaveAttesterSlashing s E (fst (SaveAttesterSlashing s E b))) =
    fst (SaveAttesterSlashing s E b) /\
  (snd (SaveAttesterSlashing s E b) = None ->
   SaveAttesterSlashing s E (fst (SaveAttesterSlashing s E b)) =
     (fst (SaveAttesterSlashing s E b), None)).
Proof.
  destruct (Save_inv s E b) as [[e Hs]|[[Hs _]|(r & enc & Hr & _ & Hs)]];
    rewrite Hs; simpl.
  - rewrite Hs. split; [reflexivity|discriminate].
  - rewrite Hs. auto.
  - assert (Hagain : SaveAttesterSlashing s E
        (bucket_insert (encodeStatusTypeRoot s Attestation r) enc
           (purge (root_bytes r) b)) =
        (bucket_insert (encodeStatusTypeRoot s Attestation r) enc
           (purge (root_bytes r) b), None)).
    { unfold SaveAttesterSlashing. rewrite (Has_insert_purge E s r enc b Hr).
      simpl. now rewrite (Byte.byte_dec_lb (eq_refl s)). }
    rewrite Hagain. auto.
Qed.

(** C4.  Has reflects the latest status: right after a
    [SaveAttesterSlashing] that returned nil, [HasAttesterSlashing] returns
    found, the saved status and no error. *)
Theorem C4_has_after_save (s : SlashingStatus) (E : AttesterSlashing)
    (b : Bucket) :
  snd (SaveAttesterSlashing s E b) = None ->
  HasAttesterSlashing E (fst (SaveAttesterSlashing s E b)) = (true, s, None).
Proof.
  intros Hnil.
  destruct (Save_inv s E b) as [[e Hs]|[[Hs Hhas]|(r & enc & Hr & _ & Hs)]];
    rewrite Hs in *; simpl in *.
  - discriminate Hnil.
  - exact Hhas.
  - unfold HasAttesterSlashing, view, Cursor_First. rewrite Hr.
    now rewrite scanHas_insert_purge.
Qed.

(** C5.  Delete is idempotent: when no key of the table ends with the root
    of the slashing, [DeleteAttesterSlashing] returns nil and the table is
    the one it was given. *)
Theorem C5_delete_absent (E : AttesterSlashing) (r : Root) (b : Bucket) :
  HashTreeRoot E = Ok r ->
  (forall k v, In (k, v) b -> HasSuffix k (root_bytes r) = false) ->
  DeleteAttesterSlashing E b = (b, None).
Proof.
  intros Hr Hnone. unfold DeleteAttesterSlashing, update, Cursor_First.
  rewrite Hr. rewrite forEachDelete_none; [reflexivity|].
  intros [k v] Hin. exact (Hnone k v Hin).
Qed.

(** C9.  Exact delete: [DeleteAttesterSlashingWithStatus] leaves the table
    as it was or without the one key of the status, type and root; every
    pair under another key stays, none is added; and when that key is
    absent the call returns nil and the table is unchanged. *)
Theorem C9_delete_exact (s : SlashingStatus) (E : AttesterSlashing) (r : Root)
    (b : Bucket) :
  HashTreeRoot E = Ok r ->
  (fst (DeleteAttesterSlashingWithStatus s E b) = b \/
   fst (DeleteAttesterSlashingWithStatus s E b) =
     bucket_remove (encodeStatusTypeRoot s Attestation r) b) /\
  (forall k v, k <> encodeStatusTypeRoot s Attestation r ->
     (In (k, v) (fst (DeleteAttesterSlashingWithStatus s E b)) <-> In (k, v) b)) /\
  (forall v, In (encodeStatusTypeRoot s Attestation r, v)
               (fst (DeleteAttesterSlashingWithStatus s E b)) ->
             In (encodeStatusTypeRoot s Attestation r, v) b) /\
  ((forall v, ~ In (encodeStatusTypeRoot s Attestation r, v) b) ->
   DeleteAttesterSlashingWithStatus s E b = (b, None)).
Proof.
  intros Hr.
  assert (Hcases : fst (DeleteAttesterSlashingWithStatus s E b) = b \/
     fst (DeleteAttesterSlashingWithStatus s E b) =
       bucket_remove (encodeStatusTypeRoot s Attestation r) b).
  { destruct (DeleteWithStatus_cases s E b) as [Hsame|(r' & Hr' & Hrem)];
      [now left|]. rewrite Hr in Hr'. inversion Hr'; subst r'. now right. }
  split; [exact Hcases|]. split; [|split].
  - intros k v Hk. destruct Hcases as [->| ->]; [tauto|].
    rewrite bucket_remove_In. simpl. tauto.
  - intros v. destruct Hcases as [->| ->]; [tauto|].
    rewrite bucket_remove_In. tauto.
  - intros Habsent. unfold DeleteAttesterSlashingWithStatus, update.
    rewrite Hr. rewrite Bucket_Delete_absent; [reflexivity|].
    destruct (bucket_mem (encodeStatusTypeRoot s Attestation r) b) eqn:Hmem;
      [|reflexivity].
    apply bucket_mem_In in Hmem as [v Hv]. now destruct (Habsent v).
Qed.

(** C10.  The listings agree: when every value stored under the status
    prefix decodes, [AttesterSlashings] and [AttestingSlashingsByStatus]
    return the same slashings in the same order, and no error; on a sorted
    bucket that order is the key order of the values under the prefix. *)
Theorem C10_listings_agree (s : SlashingStatus) (b : Bucket) :
  (forall k v, In (k, v) b ->
     HasPrefix k (encodeStatusType s Attestation) = true ->
     exists e, Unmarshal v = Ok e) ->
  AttesterSlashings s b = AttestingSlashingsByStatus s b /\
  snd (AttesterSlashings s b) = None /\
  (bucket_ok b ->
   Forall2 (fun v e => Unmarshal v = Ok e)
     (map snd (under (encodeStatusType s Attestation) b))
     (fst (AttesterSlashings s b))).
Proof.
  intros Hdec.
  cut (AttesterSlashings s b = AttestingSlashingsByStatus s b /\
       snd (AttesterSlashings s b) = None).
  { intros [Heq Hnone]. repeat split; auto.
    intros Hok. now apply listing_in_key_order. }
  unfold AttesterSlashings, AttestingSlashingsByStatus, view.
  set (p := encodeStatusType s Attestation) in *.
  destruct (scanDecode_decodeEncoded p (Cursor_Seek p b) []) as [Hsnd Heq].
  assert (Hnone : snd (decodeEncoded (scanEncoded p (Cursor_Seek p b) []) []
                         None) = None).
  { destruct (Forall2_decodable (scanEncoded p (Cursor_Seek p b) []))
      as [es Hes].
    - intros v (k & Hin & Hpre)%scanEncoded_In.
      apply Cursor_Seek_incl in Hin. eauto.
    - now rewrite (decodeEncoded_Forall2 _ es). }
  split; [|exact Hnone].
  symmetry. apply Heq. now rewrite Hsnd.
Qed.

(** C8.  No best-effort listing: on a sorted table where some value stored
    under the status prefix does not decode, [AttesterSlashings] returns an
    error with no slashings, and [AttestingSlashingsByStatus] returns an
    error. *)
Theorem C8_listing_fails (s : SlashingStatus) (b : Bucket) (k : key)
    (v : value) :
  bucket_ok b -> In (k, v) b ->
  HasPrefix k (encodeStatusType s Attestation) = true ->
  (exists e, Unmarshal v = Fail e) ->
  (exists e1, AttesterSlashings s b = ([], Some e1)) /\
  (exists e2, snd (AttestingSlashingsByStatus s b) = Some e2).
Proof.
  intros Hok Hin Hpre Hbad.
  unfold AttesterSlashings, AttestingSlashingsByStatus, view.
  set (p := encodeStatusType s Attestation) in *.
  assert (Hv : In v (scanEncoded p (Cursor_Seek p b) [])).
  { rewrite scanEncoded_Seek by assumption. apply in_map_iff.
    exists (k, v). split; [reflexivity|]. apply filter_In. auto. }
  destruct (decodeEncoded_bad _ [] None v Hv Hbad) as [e' He'].
  split; [eauto|].
  destruct (scanDecode_decodeEncoded p (Cursor_Seek p b) []) as [Hsnd _].
  rewrite Hsnd, He'. simpl. eauto.
Qed.

(** C3.  Status move: on a sorted table of records of the store, with a
    serializer that round-trips, after a [SaveAttesterSlashing] of [E] under
    [s1] and one under another status [s2], both returning nil, the listing
    of [s1] does not hold [E] and the listing of [s2] holds it exactly
    once. *)
Theorem C3_status_move (s1 s2 : SlashingStatus) (E : AttesterSlashing)
    (b : Bucket) :
  codec_roundtrip -> bucket_ok b -> store_wf b -> s1 <> s2 ->
  snd (SaveAttesterSlashing s1 E b) = None ->
  snd (SaveAttesterSlashing s2 E (fst (SaveAttesterSlashing s1 E b))) = None ->
  (exists l, AttesterSlashings s1
               (fst (SaveAttesterSlashing s2 E
                       (fst (SaveAttesterSlashing s1 E b)))) = (l, None) /\
             ~ In E l) /\
  (exists l, AttesterSlashings s2
               (fst (SaveAttesterSlashing s2 E
                       (fst (SaveAttesterSlashing s1 E b)))) = (l, None) /\
             exactly_once E l).
Proof.
  intros Hrt Hok Hwf Hne Hs1 Hs2.
  pose proof (Has_after_Save s1 E b Hs1) as Hhas1.
  pose proof (Save_ok s1 E b Hok) as Hok1.
  pose proof (Save_wf s1 E b Hwf) as Hwf1.
  set (b1 := fst (SaveAttesterSlashing s1 E b)) in *.
  pose proof (Save_ok s2 E b1 Hok1) as Hok2.
  pose proof (Save_wf s2 E b1 Hwf1) as Hwf2.
  destruct (Save_inv s2 E b1)
    as [[e Hs]|[[_ Hhas]|(r & enc & Hr & Henc & Hs)]].
  - rewrite Hs in Hs2. discriminate.
  - rewrite Hhas1 in Hhas. inversion Hhas. contradiction.
  - rewrite Hs in *. simpl in *. clear Hs Hs2.
    set (K2 := encodeStatusTypeRoot s2 Attestation r) in *.
    split.
    + destruct (AttesterSlashings_spec s1 _ Hrt Hok2 Hwf2) as (l & Hl & Hall).
      exists l. split; [exact Hl|]. intros HE.
      destruct (Forall2_In_r _ _ _ _ Hall HE) as (v & Hv & Hdec).
      apply in_map_iff in Hv as ([k v'] & Hsnd & [Hin Hpre]%filter_In).
      simpl in *. subst v'.
      pose proof (listed_is_stored s1 E r _ k v Hrt Hwf2 Hr Hin Hpre Hdec)
        as Hk.
      assert (Hcopy : In (k, v) (copies (root_bytes r)
                (bucket_insert K2 enc (purge (root_bytes r) b1)))).
      { apply filter_In. split; [assumption|]. simpl. subst k.
        apply key_HasSuffix. }
      unfold K2 in Hcopy. rewrite copies_insert_purge in Hcopy.
      destruct Hcopy as [Heq|[]]. rewrite Hk in Heq.
      inversion Heq. congruence.
    + destruct (AttesterSlashings_spec s2 _ Hrt Hok2 Hwf2) as (l & Hl & Hall).
      exists l. split; [exact Hl|].
      destruct (insert_purge_split s2 Attestation r enc b1)
        as (l1 & l2 & Hp & Hins).
      fold K2 in Hins. rewrite Hins in Hall. unfold under in Hall.
      rewrite filter_app in Hall. simpl in Hall.
      assert (HK2 : HasPrefix K2 (encodeStatusType s2 Attestation) = true).
      { apply HasPrefix_spec. now exists (root_bytes r). }
      rewrite HK2, map_app in Hall. simpl in Hall.
      apply Forall2_app_inv_l in Hall as (es1 & es' & Hall1 & Hall' & ->).
      inversion Hall' as [|? e ? es2 He Hall2]; subst.
      rewrite (Hrt E enc Henc) in He. inversion He; subst e.
      assert (Hsub : forall l0, (forall e, In e l0 -> In e (l1 ++ l2)) ->
                forall es, Forall2 (fun v e => Unmarshal v = Ok e)
                  (map snd (under (encodeStatusType s2 Attestation) l0)) es ->
                ~ In E es).
      { intros l0 Hl0 es. apply (no_copy_not_listed s2 E r b1 l0 es); auto.
        - intros e He0. apply (purge_In (root_bytes r) b1).
          rewrite Hp. auto.
        - intros e He0. apply (purge_In (root_bytes r) b1).
          rewrite Hp. auto. }
      exists es1, es2. split; [reflexivity|]. split.
      * apply (Hsub l1); [|exact Hall1]. intros e0 He0. apply in_or_app. auto.
      * apply (Hsub l2); [|exact Hall2]. intros e0 He0. apply in_or_app. auto.
Qed.


End WithCollaborators.
End Properties.

(* ================================================================== *)
(** ** The store at work on concrete tables *)

Module Runs.
Import Bytes BytesFacts BucketFacts StoreFacts Transition Invariants Properties.
Import Init.Byte.

Local Open Scope string_scope.

Lemma sound_roundtrip : codec_roundtrip (C := Toy.sound).
Proof. intros e enc Henc. inversion Henc. reflexivity. Qed.

Lemma table0_reachable : reachable (C := Toy.sound) Toy.table0.
Proof.
  exact (reachable_step (CallSave (C := Toy.sound) x03 x07) _
           (reachable_step (CallSave (C := Toy.sound) x01 x09) _
              reachable_empty)).
Qed.

Lemma table0_ok : bucket_ok Toy.table0.
Proof. exact (proj1 (reachable_inv _ table0_reachable)). Qed.

Lemma table0_wf : store_wf (C := Toy.sound) Toy.table0.
Proof. exact (proj2 (reachable_inv _ table0_reachable)). Qed.

(** The scenario of the specification: save as pending (status 1), save as
    processed (status 2), delete under the processed status. *)
Example scenario :
  let b1 := fst (SaveAttesterSlashing (C := Toy.sound) x01 x07 []) in
  let b2 := fst (SaveAttesterSlashing (C := Toy.sound) x02 x07 b1) in
  let b3 := fst (DeleteAttesterSlashingWithStatus (C := Toy.sound) x02 x07 b2) in
  AttesterSlashings (C := Toy.sound) x01 b1 = ([x07], None) /\
  AttesterSlashings (C := Toy.sound) x02 b1 = ([], None) /\
  AttesterSlashings (C := Toy.sound) x01 b2 = ([], None) /\
  AttesterSlashings (C := Toy.sound) x02 b2 = ([x07], None) /\
  HasAttesterSlashing (C := Toy.sound) x07 b2 = (true, x02, None) /\
  HasAttesterSlashing (C := Toy.sound) x07 b3 = (false, x00, None).
Proof. vm_compute. repeat split. Qed.

(** C7.  Error propagation fails in [DeleteAttesterSlashing]: with an engine
    whose [Delete] fails on the stored key of the slashing, the call still
    returns nil and the record stays, while the sibling
    [DeleteAttesterSlashingWithStatus] returns the wrapped error. *)
Theorem C7_delete_error_dropped :
  Bucket_Delete (C := Toy.failing) (Toy.key_of x01 x07)
    [(Toy.key_of x01 x07, [x07])] =
    ([(Toy.key_of x01 x07, [x07])], Some (ErrExternal "delete failed")) /\
  DeleteAttesterSlashing (C := Toy.failing) x07 [(Toy.key_of x01 x07, [x07])] =
    ([(Toy.key_of x01 x07, [x07])], None) /\
  DeleteAttesterSlashingWithStatus (C := Toy.failing) x01 x07
    [(Toy.key_of x01 x07, [x07])] =
    ([(Toy.key_of x01 x07, [x07])],
     Some (ErrWrap (ErrExternal "delete failed")
             "failed to delete the slashing proof from slashing bucket")).
Proof. vm_compute. repeat split. Qed.

Lemma C1_witness :
  length (copies (repeat x07 32)
            (saveAll (C := Toy.sound) [(x01, x07); (x02, x07); (x01, x09)] []))
  <= 1.
Proof.
  apply (C1_save_keeps_one_copy (C := Toy.sound)
           [(x01, x07); (x02, x07); (x01, x09)] x07 (Toy.root_of x07) []).
  - reflexivity.
  - simpl. lia.
Defined.

Lemma C3_witness :
  (exists l, AttesterSlashings (C := Toy.sound) x01
     (fst (SaveAttesterSlashing (C := Toy.sound) x02 x07
        (fst (SaveAttesterSlashing (C := Toy.sound) x01 x07 Toy.table0)))) =
     (l, None) /\ ~ In x07 l) /\
  (exists l, AttesterSlashings (C := Toy.sound) x02
     (fst (SaveAttesterSlashing (C := Toy.sound) x02 x07
        (fst (SaveAttesterSlashing (C := Toy.sound) x01 x07 Toy.table0)))) =
     (l, None) /\ exactly_once x07 l).
Proof.
  apply (C3_status_move (C := Toy.sound) x01 x02 x07 Toy.table0).
  - exact sound_roundtrip.
  - exact table0_ok.
  - exact table0_wf.
  - discriminate.
  - reflexivity.
  - reflexivity.
Defined.

Lemma C4_witness :
  HasAttesterSlashing (C := Toy.sound) x07
    (fst (SaveAttesterSlashing (C := Toy.sound) x02 x07
            [(Toy.key_of x01 x07, [x07])])) = (true, x02, None).
Proof.
  apply (C4_has_after_save (C := Toy.sound) x02 x07
           [(Toy.key_of x01 x07, [x07])]).
  reflexivity.
Defined.

Lemma C5_witness :
  DeleteAttesterSlashing (C := Toy.sound) x09 [(Toy.key_of x01 x07, [x07])] =
  ([(Toy.key_of x01 x07, [x07])], None).
Proof.
  apply (C5_delete_absent (C := Toy.sound) x09 (Toy.root_of x09)
           [(Toy.key_of x01 x07, [x07])]).
  - reflexivity.
  - intros k v [Heq|[]]. inversion Heq. reflexivity.
Defined.


Lemma C8_witness :
  (exists e1, AttesterSlashings (C := Toy.sound) x01
                [(Toy.key_of x01 x07, [x07]); (Toy.key_of x01 x09, [])] =
              ([], Some e1)) /\
  (exists e2, snd (AttestingSlashingsByStatus (C := Toy.sound) x01
                [(Toy.key_of x01 x07, [x07]); (Toy.key_of x01 x09, [])]) =
              Some e2).
Proof.
  apply (C8_listing_fails (C := Toy.sound) x01
           [(Toy.key_of x01 x07, [x07]); (Toy.key_of x01 x09, [])]
           (Toy.key_of x01 x09) []).
  - repeat constructor.
  - right. left. reflexivity.
  - reflexivity.
  - eexists. reflexivity.
Defined.

Lemma C9_witness :
  fst (DeleteAttesterSlashingWithStatus (C := Toy.sound) x01 x07
         [(Toy.key_of x01 x07, [x07]); (Toy.key_of x02 x09, [x09])]) =
  [(Toy.key_of x02 x09, [x09])] /\
  DeleteAttesterSlashingWithStatus (C := Toy.sound) x02 x07
    [(Toy.key_of x01 x07, [x07])] = ([(Toy.key_of x01 x07, [x07])], None).
Proof.
  split.
  - reflexivity.
  - apply (C9_delete_exact (C := Toy.sound) x02 x07 (Toy.root_of x07)
             [(Toy.key_of x01 x07, [x07])]).
    + reflexivity.
    + intros v [Heq|[]]. inversion Heq.
Defined.

Lemma C10_witness :
  AttesterSlashings (C := Toy.sound) x01
    [(Toy.key_of x01 x07, [x07]); (Toy.key_of x01 x09, [x09])] =
  AttestingSlashingsByStatus (C := Toy.sound) x01
    [(Toy.key_of x01 x07, [x07]); (Toy.key_of x01 x09, [x09])] /\
  snd (AttesterSlashings (C := Toy.sound) x01
    [(Toy.key_of x01 x07, [x07]); (Toy.key_of x01 x09, [x09])]) = None.
Proof.
  destruct (C10_listings_agree (C := Toy.sound) x01
              [(Toy.key_of x01 x07, [x07]); (Toy.key_of x01 x09, [x09])])
    as (Heq & Hnone & _).
  - intros k v [Heq|[Heq|[]]] _; inversion Heq; eexists; reflexivity.
  - split; [exact Heq | exact Hnone].
Defined.

End Runs.

(* ================================================================== *)
(** ** Further facts on the loops, used by the properties below *)

Module MoreFacts.
Import Bytes BytesFacts BucketFacts StoreFacts Transition Invariants.

Lemma filter_partition_length {A : Type} (f : A -> bool) (l : list A) :
  length (filter f l) + length (filter (fun x => negb (f x)) l) = length l.
Proof.
  induction l as [|x l IH]; simpl; [reflexivity|].
  destruct (f x); simpl; lia.
Qed.

Lemma filter_idem {A : Type} (f : A -> bool) (l : list A) :
  filter f (filter f l) = filter f l.
Proof.
  rewrite filter_filter. apply filter_ext. intros x. now destruct (f x).
Qed.

Lemma Forall2_In_l {A B : Type} (R : A -> B -> Prop) (l : list A) (l' : list B)
    (x : A) :
  Forall2 R l l' -> In x l -> exists y, In y l' /\ R x y.
Proof.
  induction 1 as [|x' y l l' Hxy Hall IH]; simpl; [contradiction|].
  intros [->|Hin]; [eauto|].
  destruct (IH Hin) as (y' & Hy' & HR). eauto.
Qed.

(** Removing the keys selected by [P], one by one, filters them out. *)
Lemma remove_selected (P : key -> bool) (b : Bucket) :
  fold_left (fun b k => bucket_remove k b)
    (map fst (filter (fun e => P (fst e)) b)) b =
  filter (fun e => negb (P (fst e))) b.
Proof.
  rewrite remove_all_spec. apply filter_ext_in. intros [k v] Hin. simpl.
  f_equal. destruct (P k) eqn:HP.
  - apply existsb_exists. exists k. split; [|apply Equal_refl].
    apply in_map_iff. exists (k, v). split; [reflexivity|].
    apply filter_In. auto.
  - destruct (existsb (Equal k) (map fst (filter (fun e => P (fst e)) b)))
      eqn:Hex; [|reflexivity].
    apply existsb_exists in Hex as (k' & Hk' & Heq). apply Equal_eq in Heq.
    subst k'. apply in_map_iff in Hk' as ([k' v'] & Hfst & Hin').
    simpl in Hfst. subst k'. apply filter_In in Hin' as [_ Hs]. simpl in Hs.
    congruence.
Qed.

Lemma bucket_remove_fresh (k : key) (v : value) (l1 l2 : Bucket) :
  (forall e, In e (l1 ++ l2) -> fst e <> k) ->
  bucket_remove k (l1 ++ (k, v) :: l2) = l1 ++ l2.
Proof.
  intros Hfresh. unfold bucket_remove. rewrite filter_app. simpl.
  rewrite Equal_refl. simpl. rewrite <- filter_app. apply filter_all.
  intros e He. apply negb_true_iff, Equal_neq. auto.
Qed.

(** The loop of [HasAttesterSlashing] stops at the first key that ends with
    the root. *)
Lemma scanHas_spec (r : list byte) (c : Cursor) :
  (copies r c = [] /\ scanHas r c = (false, Byte.x00)) \/
  (exists l1 k v l2,
     c = l1 ++ (k, v) :: l2 /\ copies r l1 = [] /\
     HasSuffix k r = true /\ scanHas r c = (true, hd Byte.x00 k)).
Proof.
  induction c as [|[k v] c IH]; simpl; [now left|].
  destruct (HasSuffix k r) eqn:Hs.
  - right. exists [], k, v, c. auto.
  - destruct IH as [[Hnone Hscan]|(l1 & k' & v' & l2 & -> & Hl1 & Hk' & Hscan)].
    + left. auto.
    + right. exists ((k, v) :: l1), k', v', l2. simpl. rewrite Hs. auto.
Qed.

Section WithCollaborators.
Context {C : Collaborators}.

Lemma Bucket_Delete_fst (k : key) (b : Bucket) :
  fst (Bucket_Delete k b) = if refused k then b else bucket_remove k b.
Proof.
  unfold Bucket_Delete, refused. destruct (bucket_mem k b) eqn:Hmem.
  - now destruct (delete_fault k).
  - simpl. rewrite (bucket_remove_absent k b Hmem). now destruct (delete_fault k).
Qed.

(** The callback loop of [DeleteAttesterSlashing] removes the keys that end
    with the root and that the engine accepts to delete. *)
Lemma forEachDelete_spec (r : list byte) (c : Cursor) (b : Bucket) :
  forEachDelete r c b =
  fold_left (fun b k => bucket_remove k b)
    (map fst (filter (fun e => HasSuffix (fst e) r && negb (refused (fst e))) c))
    b.
Proof.
  revert b; induction c as [|[k v] c IH]; intros b; simpl; [reflexivity|].
  rewrite IH, Bucket_Delete_fst.
  destruct (HasSuffix k r), (refused k); reflexivity.
Qed.

Lemma deleteKeys_sound (ks : list key) (b : Bucket) :
  (forall k, In k ks -> delete_fault k = None) ->
  deleteKeys ks b = (fold_left (fun b k => bucket_remove k b) ks b, None).
Proof.
  revert b; induction ks as [|k ks IH]; intros b Hks; simpl; [reflexivity|].
  destruct (Bucket_Delete k b) as [b1 [e|]] eqn:Hd.
  - apply Bucket_Delete_Some in Hd as (_ & _ & Hf).
    rewrite (Hks k (or_introl eq_refl)) in Hf. discriminate.
  - apply Bucket_Delete_None in Hd. subst b1. apply IH.
    intros k' Hk'. apply Hks. now right.
Qed.


(** The loop of [AttestingSlashingsByStatus] leaves at the first value that
    does not decode, keeping the slashings decoded before it. *)
Lemma scanDecode_partial (p : key) (c : Cursor) (acc : list AttesterSlashing)
    (e : error) :
  snd (scanDecode p c acc) = Some e ->
  exists vs1 v vs2 es cause,
    scanEncoded p c [] = vs1 ++ v :: vs2 /\
    Forall2 (fun v e => Unmarshal v = Ok e) vs1 es /\
    Unmarshal v = Fail cause /\
    scanDecode p c acc =
      (acc ++ es, Some (ErrWrap cause "failed to unmarshal encoding"%string)).
Proof.
  revert acc; induction c as [|[k v] c IH]; intros acc; simpl; [discriminate|].
  destruct (HasPrefix k p); [|discriminate].
  rewrite scanEncoded_acc. simpl.
  unfold createAttesterSlashing.
  destruct (Unmarshal v) as [ps|cause] eqn:Hv.
  - intros Herr.
    destruct (IH _ Herr) as (vs1 & v' & vs2 & es & cause & Hsc & Hall & Hbad & Hres).
    exists (v :: vs1), v', vs2, (ps :: es), cause. repeat split; auto.
    + simpl. now rewrite Hsc.
    + rewrite Hres, <- app_assoc. reflexivity.
  - intros _. exists [], v, (scanEncoded p c []), [], cause.
    rewrite app_nil_r. repeat split; auto.
Qed.

Lemma Save_cases_keep (P : Bucket -> Prop) (s : SlashingStatus)
    (E : AttesterSlashing) (b : Bucket) :
  P b ->
  (forall r enc, HashTreeRoot E = Ok r -> Marshal E = Ok enc ->
     P (bucket_insert (encodeStatusTypeRoot s Attestation r) enc
          (purge (root_bytes r) b))) ->
  P (fst (SaveAttesterSlashing s E b)).
Proof.
  intros Hb Hins.
  destruct (Save_inv s E b) as [[e ->]|[[-> _]|(r & enc & Hr & Henc & ->)]];
    simpl; auto.
Qed.

(** Deletes and saves keep at most one key per root. *)
Lemma reachable_copies_le (b : Bucket) (r0 : list byte) :
  reachable b -> length r0 = 32 -> length (copies r0 b) <= 1.
Proof.
  intros Hreach Hlen.
  assert (Hrem : forall k b0, length (copies r0 b0) <= 1 ->
            length (copies r0 (bucket_remove k b0)) <= 1).
  { intros k b0 Hb0. etransitivity; [|exact Hb0].
    apply filter_length_filter. }
  induction Hreach as [|c b Hb IH]; [simpl; lia|].
  destruct c as [s E|s E|E]; simpl.
  - apply (Save_cases_keep (fun b => length (copies r0 b) <= 1)); [exact IH|].
    intros r enc _ _.
    destruct (list_eq_dec Byte.byte_eq_dec r0 (root_bytes r)) as [->|Hne].
    + rewrite copies_insert_purge. simpl. lia.
    + etransitivity; [apply copies_insert_other; assumption|exact IH].
  - destruct (DeleteWithStatus_cases s E b) as [->|(r & _ & ->)]; auto.
  - apply (Delete_preserves (fun b => length (copies r0 b) <= 1)); auto.
Qed.

(** A record listed under a status decodes to a slashing that has a root,
    and is stored under the key of that slashing for the status. *)
Lemma listed_has_root (s : SlashingStatus) (E : AttesterSlashing) (b : Bucket)
    (k : key) (v : value) :
  codec_roundtrip -> store_wf b -> In (k, v) b ->
  HasPrefix k (encodeStatusType s Attestation) = true ->
  Unmarshal v = Ok E ->
  exists r, HashTreeRoot E = Ok r /\ k = encodeStatusTypeRoot s Attestation r.
Proof.
  intros Hrt Hwf Hin Hpre Hv.
  destruct (Hwf k v Hin (prefix_type_byte _ _ _ Hpre))
    as (s' & E' & r' & Hr' & Hk & Henc).
  pose proof (Hrt _ _ Henc) as Hdec. rewrite Hdec in Hv.
  inversion Hv; subst E'. exists r'. split; [assumption|].
  exact (listed_is_stored s E r' b k v Hrt Hwf Hr' Hin Hpre Hdec).
Qed.

(** Decoding sorted records of the store gives no slashing twice. *)
Lemma decoded_NoDup (s : SlashingStatus) (l : Bucket)
    (es : list AttesterSlashing) :
  StronglySorted key_lt l ->
  (forall k v e, In (k, v) l -> Unmarshal v = Ok e ->
     exists r, HashTreeRoot e = Ok r /\
               k = encodeStatusTypeRoot s Attestation r) ->
  Forall2 (fun v e => Unmarshal v = Ok e) (map snd l) es ->
  NoDup es.
Proof.
  intros Hsorted. revert es.
  induction Hsorted as [|[k v] l Hl IH Hk]; intros es Hkey Hall;
    inversion Hall as [|? e ? es' Hv Hall']; subst; constructor.
  - intros Hin.
    destruct (Forall2_In_r _ _ _ _ Hall' Hin) as (v' & Hv' & Hdec').
    apply in_map_iff in Hv' as ([k' v''] & Hsnd & Hin'). simpl in Hsnd.
    subst v''.
    destruct (Hkey k v e (or_introl eq_refl) Hv) as (r & Hr & ->).
    destruct (Hkey k' v' e (or_intror Hin') Hdec') as (r' & Hr' & ->).
    rewrite Hr in Hr'. inversion Hr'; subst r'.
    rewrite Forall_forall in Hk. specialize (Hk _ Hin').
    exact (Compare_lt_irrefl _ Hk).
  - apply IH; [|assumption]. intros k' v' e' Hin'. apply Hkey. now right.
Qed.

End WithCollaborators.
End MoreFacts.

(* ================================================================== *)
(** ** Further properties of the store *)

Module Extras.
Import Bytes BytesFacts BucketFacts StoreFacts Transition Invariants MoreFacts.

Section WithCollaborators.
Context {C : Collaborators}.

(** X1.  [HasAttesterSlashing], once the root is computed, returns no error;
    it returns not found with the zero status exactly when no key ends with
    the root, and otherwise the first byte of the first key, in cursor
    order, that ends with the root. *)
Theorem X1_has_first_copy (E : AttesterSlashing) (r : Root) (b : Bucket) :
  HashTreeRoot E = Ok r ->
  (copies (root_bytes r) b = [] /\
   HasAttesterSlashing E b = (false, Byte.x00, None)) \/
  (exists l1 k v l2 st,
     b = l1 ++ (k, v) :: l2 /\ copies (root_bytes r) l1 = [] /\
     HasSuffix k (root_bytes r) = true /\ nth_error k 0 = Some st /\
     HasAttesterSlashing E b = (true, st, None)).
Proof.
  intros Hr. unfold HasAttesterSlashing, view, Cursor_First. rewrite Hr.
  destruct (scanHas_spec (root_bytes r) b)
    as [[Hnone ->]|(l1 & k & v & l2 & Hb & Hl1 & Hk & Hscan)]; [now left|].
  right. rewrite Hscan. simpl.
  assert (Hne : k <> []).
  { apply (HasSuffix_nonempty k (root_bytes r)); [|assumption].
    intros Hnil. pose proof (root_len r) as Hlen. rewrite Hnil in Hlen.
    discriminate. }
  destruct k as [|st k]; [contradiction|].
  exists l1, (st :: k), v, l2, st. auto.
Qed.

(** X2.  A slashing whose root cannot be computed: every operation returns
    the hash error wrapped with its message ([SaveAttesterSlashing] wraps
    the error of [HasAttesterSlashing] once more) and the table is the one
    it was given. *)
Theorem X2_hash_failure (s : SlashingStatus) (E : AttesterSlashing) (e : error)
    (b : Bucket) :
  HashTreeRoot E = Fail e ->
  HasAttesterSlashing E b =
    (false, Byte.x00,
     Some (ErrWrap e "failed to get hash root of attesterSlashing"%string)) /\
  SaveAttesterSlashing s E b =
    (b, Some (ErrWrap
                (ErrWrap e "failed to get hash root of attesterSlashing"%string)
                "failed to check if attester slashing is already in db"%string)) /\
  updateAttesterSlashingStatus E s b =
    (b, Some (ErrWrap e "failed to get hash root of attesterSlashing"%string)) /\
  DeleteAttesterSlashingWithStatus s E b =
    (b, Some (ErrWrap e "failed to get hash root of attesterSlashing"%string)) /\
  DeleteAttesterSlashing E b =
    (b, Some (ErrWrap e "failed to get hash root of attester slashing"%string)).
Proof.
  intros Hr.
  unfold SaveAttesterSlashing, HasAttesterSlashing,
    updateAttesterSlashingStatus, DeleteAttesterSlashingWithStatus,
    DeleteAttesterSlashing.
  rewrite Hr. repeat split.
Qed.


(** X4.  Frame of a save: whatever [SaveAttesterSlashing] returns, a pair
    whose key does not end with the root of the slashing is in the table
    after the call exactly when it was before. *)
Theorem X4_save_frame (s : SlashingStatus) (E : AttesterSlashing) (r : Root)
    (b : Bucket) (k : key) (v : value) :
  HashTreeRoot E = Ok r -> HasSuffix k (root_bytes r) = false ->
  (In (k, v) (fst (SaveAttesterSlashing s E b)) <-> In (k, v) b).
Proof.
  intros Hr Hk.
  destruct (Save_inv s E b) as [[e ->]|[[-> _]|(r' & enc & Hr' & _ & ->)]];
    simpl; try tauto.
  rewrite Hr in Hr'. inversion Hr'; subst r'.
  destruct (insert_purge_split s Attestation r enc b) as (l1 & l2 & Hp & ->).
  assert (Hpurge : In (k, v) (l1 ++ l2) <-> In (k, v) b).
  { rewrite <- Hp, purge_In. simpl. tauto. }
  rewrite <- Hpurge, !in_app_iff. simpl. split; [|tauto].
  intros [H1|[Heq|H2]]; auto.
  inversion Heq; subst k. rewrite key_HasSuffix in Hk. discriminate.
Qed.

(** X5.  Save then list: after a transition that commits on a sorted table,
    with a serializer that round-trips, a listing of the new status that
    returns no error holds the slashing. *)
Theorem X5_saved_is_listed (s : SlashingStatus) (E : AttesterSlashing)
    (b b' : Bucket) :
  codec_roundtrip -> bucket_ok b ->
  updateAttesterSlashingStatus E s b = (b', None) ->
  snd (AttesterSlashings s b') = None ->
  In E (fst (AttesterSlashings s b')).
Proof.
  intros Hrt Hok (r & enc & Hr & Henc & ->)%updateStatus_None Hnone.
  set (b' := bucket_insert _ enc _) in *.
  assert (Hok' : bucket_ok b') by now apply bucket_insert_ok, purge_ok.
  pose proof (listing_in_key_order s b' Hok' Hnone) as Hall.
  assert (Hin : In enc (map snd (under (encodeStatusType s Attestation) b'))).
  { apply in_map_iff. exists (encodeStatusTypeRoot s Attestation r, enc).
    split; [reflexivity|]. apply filter_In. split.
    - apply bucket_insert_In.
    - apply HasPrefix_spec. now exists (root_bytes r). }
  destruct (Forall2_In_l _ _ _ _ Hall Hin) as (e & He & Hdec).
  rewrite (Hrt E enc Henc) in Hdec. inversion Hdec. now subst.
Qed.

(** X6.  Invariant of the store: every table reached from the empty bucket
    by saves and deletes, whatever they return, is sorted, holds under the
    attestation type only records the store wrote, and holds at most one
    key ending with any given 32-byte root. *)
Theorem X6_reachable_invariant (b : Bucket) (r0 : list byte) :
  reachable b -> length r0 = 32 ->
  bucket_ok b /\ store_wf b /\ length (copies r0 b) <= 1.
Proof.
  intros Hreach Hlen.
  destruct (reachable_inv b Hreach) as [Hok Hwf].
  split; [exact Hok|]. split; [exact Hwf|].
  now apply reachable_copies_le.
Qed.

(** X7.  What [DeleteAttesterSlashing] removes: once the root is computed
    it returns nil, and the table it leaves is the given one, in order,
    without the pairs whose key ends with the root and whose delete the
    engine accepted; pairs whose delete was refused stay. *)
Theorem X7_delete_keeps_refused (E : AttesterSlashing) (r : Root) (b : Bucket) :
  HashTreeRoot E = Ok r ->
  DeleteAttesterSlashing E b =
  (filter (fun e => negb (HasSuffix (fst e) (root_bytes r) &&
                          negb (refused (fst e)))) b, None).
Proof.
  intros Hr. unfold DeleteAttesterSlashing, update, Cursor_First. rewrite Hr.
  rewrite forEachDelete_spec.
  now rewrite (remove_selected
                 (fun k => HasSuffix k (root_bytes r) && negb (refused k))).
Qed.

(** X8.  Deleting twice: a second [DeleteAttesterSlashing] of the same
    slashing returns nil and leaves the table the first one left. *)
Theorem X8_delete_twice (E : AttesterSlashing) (r : Root) (b : Bucket) :
  HashTreeRoot E = Ok r ->
  DeleteAttesterSlashing E (fst (DeleteAttesterSlashing E b)) =
  (fst (DeleteAttesterSlashing E b), None).
Proof.
  intros Hr. unfold DeleteAttesterSlashing, update, Cursor_First. rewrite Hr.
  simpl. rewrite !forEachDelete_spec.
  rewrite !(remove_selected
              (fun k => HasSuffix k (root_bytes r) && negb (refused k))).
  now rewrite filter_idem.
Qed.

(** X9.  Save then exact delete: after a transition that commits, deleting
    the slashing under the same status, on an engine that accepts that
    delete, returns nil and leaves the table the transition started from
    without any key ending with the root; [HasAttesterSlashing] then
    returns not found. *)
Theorem X9_save_then_delete_exact (s : SlashingStatus) (E : AttesterSlashing)
    (r : Root) (b b' : Bucket) :
  HashTreeRoot E = Ok r ->
  updateAttesterSlashingStatus E s b = (b', None) ->
  delete_fault (encodeStatusTypeRoot s Attestation r) = None ->
  DeleteAttesterSlashingWithStatus s E b' = (purge (root_bytes r) b, None) /\
  HasAttesterSlashing E (purge (root_bytes r) b) = (false, Byte.x00, None).
Proof.
  intros Hr (r' & enc & Hr' & _ & ->)%updateStatus_None Hfault.
  rewrite Hr in Hr'. inversion Hr'; subst r'. split.
  - unfold DeleteAttesterSlashingWithStatus, update. rewrite Hr.
    destruct (insert_purge_split s Attestation r enc b) as (l1 & l2 & Hp & ->).
    unfold Bucket_Delete.
    replace (bucket_mem _ _) with true.
    + rewrite Hfault, bucket_remove_fresh; [now rewrite Hp|].
      intros e He. rewrite <- Hp in He.
      exact (purge_fresh s Attestation r b e He).
    + symmetry. apply bucket_mem_In. exists enc. apply in_or_app.
      right. now left.
  - unfold HasAttesterSlashing, view, Cursor_First. rewrite Hr.
    rewrite scanHas_none; [reflexivity|].
    intros e He. now apply purge_In in He.
Qed.

(** X10.  Exact delete under another status: after a transition that
    commits under [s], deleting the slashing under a status other than [s]
    returns nil and changes nothing. *)
Theorem X10_delete_other_status (s s' : SlashingStatus) (E : AttesterSlashing)
    (b b' : Bucket) :
  updateAttesterSlashingStatus E s b = (b', None) -> s' <> s ->
  DeleteAttesterSlashingWithStatus s' E b' = (b', None).
Proof.
  intros (r & enc & Hr & _ & ->)%updateStatus_None Hne.
  unfold DeleteAttesterSlashingWithStatus, update. rewrite Hr.
  rewrite Bucket_Delete_absent; [reflexivity|].
  destruct (bucket_mem _ _) eqn:Hmem; [|reflexivity].
  apply bucket_mem_In in Hmem as [v Hin].
  apply bucket_insert_In_inv in Hin as [Heq|Hin].
  - inversion Heq. contradiction.
  - apply purge_In in Hin as [_ Hs]. simpl in Hs.
    rewrite key_HasSuffix in Hs. discriminate.
Qed.

(** X11.  Nothing under the status: when no key of the table starts with
    the status and attestation type, both listings return the empty list
    and no error. *)
Theorem X11_listing_empty (s : SlashingStatus) (b : Bucket) :
  (forall k v, In (k, v) b ->
     HasPrefix k (encodeStatusType s Attestation) = false) ->
  AttesterSlashings s b = ([], None) /\
  AttestingSlashingsByStatus s b = ([], None).
Proof.
  intros Hnone.
  assert (Hscan : forall c, (forall e, In e c -> In e b) ->
            scanEncoded (encodeStatusType s Attestation) c [] = [] /\
            scanDecode (encodeStatusType s Attestation) c [] = ([], None)).
  { intros [|[k v] c] Hc; simpl; [auto|].
    now rewrite (Hnone k v (Hc _ (or_introl eq_refl))). }
  destruct (Hscan (Cursor_Seek (encodeStatusType s Attestation) b))
    as [Henc Hdec]; [apply Cursor_Seek_incl|].
  unfold AttesterSlashings, AttestingSlashingsByStatus, view.
  now rewrite Henc, Hdec.
Qed.


(** X13.  Partial result of [AttestingSlashingsByStatus]: on a sorted
    table, when it returns an error it returns with it the slashings
    decoded from the values under the prefix that come, in key order,
    before the first value that does not decode. *)
Theorem X13_by_status_partial (s : SlashingStatus) (b : Bucket) (e : error) :
  bucket_ok b ->
  snd (AttestingSlashingsByStatus s b) = Some e ->
  exists vs1 v vs2 es cause,
    map snd (under (encodeStatusType s Attestation) b) = vs1 ++ v :: vs2 /\
    Forall2 (fun v e => Unmarshal v = Ok e) vs1 es /\
    Unmarshal v = Fail cause /\
    AttestingSlashingsByStatus s b =
      (es, Some (ErrWrap cause "failed to unmarshal encoding"%string)).
Proof.
  intros Hok. unfold AttestingSlashingsByStatus, view. intros Herr.
  destruct (scanDecode_partial _ _ _ _ Herr)
    as (vs1 & v & vs2 & es & cause & Hsc & Hall & Hbad & Hres).
  rewrite scanEncoded_Seek in Hsc by assumption.
  exists vs1, v, vs2, es, cause. auto.
Qed.

(** X14.  Listing frame of a save: after a transition that commits under
    [s] on a sorted table, the listing of any other status is the listing
    of the table the transition started from without the keys ending with
    the root. *)
Theorem X14_other_status_listing (s s' : SlashingStatus) (E : AttesterSlashing)
    (r : Root) (b b' : Bucket) :
  bucket_ok b -> HashTreeRoot E = Ok r ->
  updateAttesterSlashingStatus E s b = (b', None) -> s' <> s ->
  AttesterSlashings s' b' = AttesterSlashings s' (purge (root_bytes r) b).
Proof.
  intros Hok Hr (r' & enc & Hr' & _ & ->)%updateStatus_None Hne.
  rewrite Hr in Hr'. inversion Hr'; subst r'.
  unfold AttesterSlashings, view.
  rewrite !scanEncoded_Seek
    by (try apply bucket_insert_ok; now apply purge_ok).
  destruct (insert_purge_split s Attestation r enc b) as (l1 & l2 & -> & ->).
  unfold under. rewrite !filter_app. simpl.
  unfold encodeStatusTypeRoot, encodeStatusType. rewrite HasPrefix_cons.
  replace (Byte.eqb s s') with false; [reflexivity|].
  symmetry. destruct (Byte.eqb s s') eqn:Heq; [|reflexivity].
  apply Byte.byte_dec_bl in Heq. now subst.
Qed.

(** X15.  A slashing that cannot be serialized: on an engine that accepts
    the deletes of the keys ending with the root, the transition returns
    the serializer's error wrapped and the table is the given one; the
    copies deleted inside the transaction are still there. *)
Theorem X15_marshal_failure (s : SlashingStatus) (E : AttesterSlashing)
    (r : Root) (e : error) (b : Bucket) :
  HashTreeRoot E = Ok r -> Marshal E = Fail e ->
  (forall k, HasSuffix k (root_bytes r) = true -> delete_fault k = None) ->
  updateAttesterSlashingStatus E s b =
    (b, Some (ErrWrap e "failed to marshal"%string)).
Proof.
  intros Hr Henc Hsound.
  unfold updateAttesterSlashingStatus, update, Cursor_First. rewrite Hr.
  rewrite deleteKeys_sound.
  - now rewrite Henc.
  - intros k Hk. rewrite collectKeys_spec in Hk. simpl in Hk.
    apply in_map_iff in Hk as ([k' v] & Hfst & [_ Hs]%filter_In).
    simpl in *. subst k'. now apply Hsound.
Qed.

(** X16.  Record count of a transition that commits: the table it leaves
    has one pair more than the given table has pairs whose key does not
    end with the root. *)
Theorem X16_transition_count (s : SlashingStatus) (E : AttesterSlashing)
    (r : Root) (b b' : Bucket) :
  HashTreeRoot E = Ok r ->
  updateAttesterSlashingStatus E s b = (b', None) ->
  length b' + length (copies (root_bytes r) b) = length b + 1.
Proof.
  intros Hr (r' & enc & Hr' & _ & ->)%updateStatus_None.
  rewrite Hr in Hr'. inversion Hr'; subst r'.
  destruct (insert_purge_split s Attestation r enc b) as (l1 & l2 & Hp & ->).
  assert (Hlen : length (copies (root_bytes r) b) +
                 length (purge (root_bytes r) b) = length b)
    by exact (filter_partition_length
                (fun e => HasSuffix (fst e) (root_bytes r)) b).
  rewrite Hp in Hlen. rewrite length_app in *. simpl. lia.
Qed.

(** X17.  Listings of a table the store built: on every table reached
    from the empty bucket, with a serializer that round-trips, both
    listings return the same slashings and no error, and no slashing is
    listed twice. *)
Theorem X17_listing_no_duplicates (s : SlashingStatus) (b : Bucket) :
  codec_roundtrip -> reachable b ->
  exists es,
    AttesterSlashings s b = (es, None) /\
    AttestingSlashingsByStatus s b = (es, None) /\
    NoDup es.
Proof.
  intros Hrt Hreach. destruct (reachable_inv b Hreach) as [Hok Hwf].
  destruct (AttesterSlashings_spec s b Hrt Hok Hwf) as (es & Hes & Hall).
  exists es. split; [exact Hes|]. split.
  - unfold AttesterSlashings, AttestingSlashingsByStatus, view in *.
    destruct (scanDecode_decodeEncoded (encodeStatusType s Attestation)
                (Cursor_Seek (encodeStatusType s Attestation) b) [])
      as [Hsnd Heq].
    rewrite Hes in *. simpl in Hsnd. now rewrite (Heq Hsnd).
  - apply (decoded_NoDup s (under (encodeStatusType s Attestation) b) es).
    + now apply StronglySorted_filter.
    + intros k v e [Hin Hpre]%filter_In Hv. simpl in Hpre.
      exact (listed_has_root s e b k v Hrt Hwf Hin Hpre Hv).
    + exact Hall.
Qed.

(** X18.  The two read paths agree: on every table reached from the empty
    bucket, with a serializer that round-trips, a slashing listed under a
    status is found by [HasAttesterSlashing] with that status. *)
Theorem X18_listed_is_found (s : SlashingStatus) (E : AttesterSlashing)
    (b : Bucket) :
  codec_roundtrip -> reachable b ->
  In E (fst (AttesterSlashings s b)) ->
  HasAttesterSlashing E b = (true, s, None).
Proof.
  intros Hrt Hreach HE. destruct (reachable_inv b Hreach) as [Hok Hwf].
  destruct (AttesterSlashings_spec s b Hrt Hok Hwf) as (es & Hes & Hall).
  rewrite Hes in HE. simpl in HE.
  destruct (Forall2_In_r _ _ _ _ Hall HE) as (v & Hv & Hdec).
  apply in_map_iff in Hv as ([k v'] & Hsnd & [Hin Hpre]%filter_In).
  simpl in *. subst v'.
  destruct (listed_has_root s E b k v Hrt Hwf Hin Hpre Hdec) as (r & Hr & ->).
  pose proof (reachable_copies_le b (root_bytes r) Hreach (root_len r)) as Hone.
  assert (Hcopy : In (encodeStatusTypeRoot s Attestation r, v)
                    (copies (root_bytes r) b)).
  { apply filter_In. split; [assumption|]. apply key_HasSuffix. }
  unfold HasAttesterSlashing, view, Cursor_First. rewrite Hr.
  destruct (scanHas_spec (root_bytes r) b)
    as [[Hnone _]|(l1 & k' & v' & l2 & Hb & Hl1 & Hk' & Hscan)].
  - rewrite Hnone in Hcopy. contradiction.
  - rewrite Hscan. simpl.
    assert (Hc : copies (root_bytes r) b =
                 (k', v') :: copies (root_bytes r) l2).
    { rewrite Hb at 1. unfold copies. rewrite filter_app. simpl. rewrite Hk'.
      change (copies (root_bytes r) l1 ++
              (k', v') :: copies (root_bytes r) l2 =
              (k', v') :: copies (root_bytes r) l2).
      now rewrite Hl1. }
    rewrite Hc in Hone, Hcopy. simpl in Hone.
    destruct (copies (root_bytes r) l2); [|simpl in Hone; lia].
    destruct Hcopy as [Heq|[]]. inversion Heq. reflexivity.
Qed.

End WithCollaborators.
End Extras.

(* ================================================================== *)
(** ** The further properties at work on concrete tables *)

Module ExtraRuns.
Import Bytes BytesFacts BucketFacts StoreFacts Transition Invariants MoreFacts.
Import Extras Runs.
Import Init.Byte.

Lemma X1_witness :
  (copies (repeat x07 32) Toy.table0 = [] /\
   HasAttesterSlashing (C := Toy.sound) x07 Toy.table0 = (false, x00, None)) \/
  (exists l1 k v l2 st,
     Toy.table0 = l1 ++ (k, v) :: l2 /\ copies (repeat x07 32) l1 = [] /\
     HasSuffix k (repeat x07 32) = true /\ nth_error k 0 = Some st /\
     HasAttesterSlashing (C := Toy.sound) x07 Toy.table0 = (true, st, None)).
Proof.
  apply (X1_has_first_copy (C := Toy.sound) x07 (Toy.root_of x07) Toy.table0).
  reflexivity.
Defined.

Lemma X2_witness :
  SaveAttesterSlashing (C := Toy.partial) x01 x00 Toy.table0 =
    (Toy.table0,
     Some (ErrWrap
             (ErrWrap (ErrExternal "ssz: cannot hash")
                "failed to get hash root of attesterSlashing")
             "failed to check if attester slashing is already in db")).
Proof.
  apply (X2_hash_failure (C := Toy.partial) x01 x00
           (ErrExternal "ssz: cannot hash") Toy.table0).
  reflexivity.
Defined.

Lemma X4_witness :
  In (Toy.key_of x01 x09, [x09])
     (fst (SaveAttesterSlashing (C := Toy.sound) x02 x07 Toy.table0)) <->
  In (Toy.key_of x01 x09, [x09]) Toy.table0.
Proof.
  apply (X4_save_frame (C := Toy.sound) x02 x07 (Toy.root_of x07) Toy.table0
           (Toy.key_of x01 x09) [x09]).
  - reflexivity.
  - reflexivity.
Defined.

Lemma X5_witness :
  In x07
    (fst (AttesterSlashings (C := Toy.sound) x02
            (fst (updateAttesterSlashingStatus (C := Toy.sound) x07 x02
                    Toy.table0)))).
Proof.
  apply (X5_saved_is_listed (C := Toy.sound) x02 x07 Toy.table0
           (fst (updateAttesterSlashingStatus (C := Toy.sound) x07 x02
                   Toy.table0))).
  - exact sound_roundtrip.
  - exact table0_ok.
  - reflexivity.
  - reflexivity.
Defined.

Lemma X6_witness :
  bucket_ok Toy.table0 /\ store_wf (C := Toy.sound) Toy.table0 /\
  length (copies (repeat x07 32) Toy.table0) <= 1.
Proof.
  apply (X6_reachable_invariant (C := Toy.sound) Toy.table0 (repeat x07 32)).
  - exact table0_reachable.
  - reflexivity.
Defined.

Lemma X7_witness :
  DeleteAttesterSlashing (C := Toy.sound) x07 Toy.table0 =
  ([(Toy.key_of x01 x09, [x09])], None).
Proof.
  exact (X7_delete_keeps_refused (C := Toy.sound) x07 (Toy.root_of x07)
           Toy.table0 eq_refl).
Defined.

Lemma X8_witness :
  DeleteAttesterSlashing (C := Toy.sound) x07
    (fst (DeleteAttesterSlashing (C := Toy.sound) x07 Toy.table0)) =
  (fst (DeleteAttesterSlashing (C := Toy.sound) x07 Toy.table0), None).
Proof.
  apply (X8_delete_twice (C := Toy.sound) x07 (Toy.root_of x07) Toy.table0).
  reflexivity.
Defined.

Lemma X9_witness :
  DeleteAttesterSlashingWithStatus (C := Toy.sound) x02 x07
    (fst (updateAttesterSlashingStatus (C := Toy.sound) x07 x02 Toy.table0)) =
    (purge (repeat x07 32) Toy.table0, None) /\
  HasAttesterSlashing (C := Toy.sound) x07 (purge (repeat x07 32) Toy.table0) =
    (false, x00, None).
Proof.
  apply (X9_save_then_delete_exact (C := Toy.sound) x02 x07 (Toy.root_of x07)
           Toy.table0
           (fst (updateAttesterSlashingStatus (C := Toy.sound) x07 x02
                   Toy.table0))).
  - reflexivity.
  - reflexivity.
  - reflexivity.
Defined.

Lemma X10_witness :
  DeleteAttesterSlashingWithStatus (C := Toy.sound) x03 x07
    (fst (updateAttesterSlashingStatus (C := Toy.sound) x07 x02 Toy.table0)) =
  (fst (updateAttesterSlashingStatus (C := Toy.sound) x07 x02 Toy.table0), None).
Proof.
  apply (X10_delete_other_status (C := Toy.sound) x02 x03 x07 Toy.table0).
  - reflexivity.
  - discriminate.
Defined.

Lemma X11_witness :
  AttesterSlashings (C := Toy.sound) x05 Toy.table0 = ([], None) /\
  AttestingSlashingsByStatus (C := Toy.sound) x05 Toy.table0 = ([], None).
Proof.
  apply (X11_listing_empty (C := Toy.sound) x05 Toy.table0).
  intros k v [Heq|[Heq|[]]]; inversion Heq; reflexivity.
Defined.

Lemma X13_witness :
  exists vs1 v vs2 es cause,
    map snd (under [x01; x01]
               [(Toy.key_of x01 x07, [x07]); (Toy.key_of x01 x09, [])]) =
      vs1 ++ v :: vs2 /\
    Forall2 (fun v e => Toy.unmarshal v = Ok e) vs1 es /\
    Toy.unmarshal v = Fail cause /\
    AttestingSlashingsByStatus (C := Toy.sound) x01
      [(Toy.key_of x01 x07, [x07]); (Toy.key_of x01 x09, [])] =
      (es, Some (ErrWrap cause "failed to unmarshal encoding")).
Proof.
  apply (X13_by_status_partial (C := Toy.sound) x01
           [(Toy.key_of x01 x07, [x07]); (Toy.key_of x01 x09, [])]
           (ErrWrap (ErrExternal "proto: cannot parse")
              "failed to unmarshal encoding")).
  - repeat constructor.
  - reflexivity.
Defined.

Lemma X14_witness :
  AttesterSlashings (C := Toy.sound) x03
    (fst (updateAttesterSlashingStatus (C := Toy.sound) x07 x02 Toy.table0)) =
  AttesterSlashings (C := Toy.sound) x03 (purge (repeat x07 32) Toy.table0).
Proof.
  apply (X14_other_status_listing (C := Toy.sound) x02 x03 x07
           (Toy.root_of x07) Toy.table0).
  - exact table0_ok.
  - reflexivity.
  - reflexivity.
  - discriminate.
Defined.

Lemma X15_witness :
  updateAttesterSlashingStatus (C := Toy.partial) xff x02
    [(Toy.key_of x01 xff, [xff])] =
  ([(Toy.key_of x01 xff, [xff])],
   Some (ErrWrap (ErrExternal "proto: cannot marshal") "failed to marshal")).
Proof.
  apply (X15_marshal_failure (C := Toy.partial) x02 xff (Toy.root_of xff)
           (ErrExternal "proto: cannot marshal")
           [(Toy.key_of x01 xff, [xff])]).
  - reflexivity.
  - reflexivity.
  - intros k _. reflexivity.
Defined.

Lemma X16_witness :
  length (fst (updateAttesterSlashingStatus (C := Toy.sound) x07 x02
                 Toy.table0)) +
  length (copies (repeat x07 32) Toy.table0) = length Toy.table0 + 1.
Proof.
  apply (X16_transition_count (C := Toy.sound) x02 x07 (Toy.root_of x07)
           Toy.table0).
  - reflexivity.
  - reflexivity.
Defined.

Lemma X17_witness :
  exists es,
    AttesterSlashings (C := Toy.sound) x01 Toy.table0 = (es, None) /\
    AttestingSlashingsByStatus (C := Toy.sound) x01 Toy.table0 = (es, None) /\
    NoDup es.
Proof.
  apply (X17_listing_no_duplicates (C := Toy.sound) x01 Toy.table0).
  - exact sound_roundtrip.
  - exact table0_reachable.
Defined.

Lemma X18_witness :
  HasAttesterSlashing (C := Toy.sound) x07 Toy.table0 = (true, x03, None).
Proof.
  apply (X18_listed_is_found (C := Toy.sound) x03 x07 Toy.table0).
  - exact sound_roundtrip.
  - exact table0_reachable.
  - left. reflexivity.
Defined.

End ExtraRuns.
